(** * README help-block synchronisation: [sync_readme.py] and
      [check_synced_readme.py]

    A shallow embedding of the two maintenance scripts of the repository.

    - [scripts/sync_readme.py] captures the output of [cargo run -- --help],
      reads [README.md], splices the captured text between the two HTML
      comment markers and writes the file back.
    - [scripts/check_synced_readme.py] (a bash script despite its name) checks
      with [git diff] that the README is clean, runs the sync script and
      checks with [git diff] again.

    A [string] is a sequence of characters.  The content of [README.md] is
    the sequence of characters its bytes stand for, when they decode; reading
    it in text mode translates the line ends, as Python does.  The scripts
    run on a POSIX system, where writing in text mode stores the characters
    as they are. *)

From Stdlib Require Import String Ascii List Arith Lia Bool.
Import ListNotations.
Open Scope string_scope.

(** ** Python strings *)

Module Str.

(** [s.removeprefix(pre)] when [s.startswith(pre)], [None] otherwise. *)
Fixpoint strip_prefix (pre s : string) : option string :=
  match pre, s with
  | EmptyString, _ => Some s
  | String _ _, EmptyString => None
  | String a pre', String b s' =>
      if Ascii.eqb a b then strip_prefix pre' s' else None
  end.

(** [s.startswith(pre)]. *)
Definition startswith (pre s : string) : bool :=
  match strip_prefix pre s with Some _ => true | None => false end.

(** [s.partition(sep)] restricted to the case where [sep] is found: the
    text before the leftmost occurrence of [sep] and the text after it.
    This is the search step of CPython's [str.split]. *)
Fixpoint cut (sep s : string) : option (string * string) :=
  match strip_prefix sep s with
  | Some rest => Some (EmptyString, rest)
  | None =>
      match s with
      | EmptyString => None
      | String c s' =>
          match cut sep s' with
          | Some (a, b) => Some (String c a, b)
          | None => None
          end
      end
  end.

(** [s.split(sep)] for a non-empty [sep]: cut at the leftmost occurrence,
    continue in the text after it.  The fuel bounds the number of cuts. *)
Fixpoint split_n (fuel : nat) (sep s : string) : list string :=
  match fuel with
  | O => [s]
  | S fuel' =>
      match cut sep s with
      | None => [s]
      | Some (a, b) => a :: split_n fuel' sep b
      end
  end.

Definition split (sep s : string) : list string :=
  split_n (String.length s) sep s.

(** Number of positions of [s] at which [sep] occurs. *)
Fixpoint occurrences (sep s : string) : nat :=
  (if startswith sep s then 1 else 0) +
  match s with
  | EmptyString => 0
  | String _ s' => occurrences sep s'
  end.

(** Characters of a string, for the separator-free barriers below. *)
Fixpoint mem (c : ascii) (s : string) : bool :=
  match s with
  | EmptyString => false
  | String d s' => Ascii.eqb c d || mem c s'
  end.

(** The text before the first occurrence of [tag] in [doc]. *)
Definition text_before (tag doc : string) : option string :=
  option_map fst (cut tag doc).

(** The text after the last occurrence of [tag] in [doc]. *)
Fixpoint text_after (tag doc : string) : option string :=
  match doc with
  | EmptyString => strip_prefix tag doc
  | String _ doc' =>
      match text_after tag doc' with
      | Some r => Some r
      | None => strip_prefix tag doc
      end
  end.

End Str.


(** ** [scripts/sync_readme.py] *)

(** Exceptions the script can end with.  None is caught: each one ends the
    process with a traceback and exit status 1.  [IndexError] is what the
    subscripts [start_parts[1]] and [...split(tag_end)[1]] raise when a marker
    is missing; the specification calls this failure
    [MalformedDocumentError]. *)
Inductive exn : Type :=
| CalledProcessError   (* cargo could not run or exited non-zero *)
| UnicodeDecodeError   (* the captured bytes are not UTF-8 *)
| FileNotFoundError    (* README.md cannot be opened for reading *)
| IndexError           (* list index out of range *)
| ValueError           (* empty separator *)
| OSError.             (* README.md cannot be opened for writing, or written *)

Definition result (A : Type) : Type := (exn + A)%type.

Definition tag_start : string := "<!-- HELP_START -->".
Definition tag_end : string := "<!-- HELP_END -->".

Definition LF : ascii := "010"%char.
Definition CR : ascii := "013"%char.

(** The literal ["\n```\n"]. *)
Definition fence : string := String LF ("```" ++ String LF "").

(** [l[i]] for a non-negative literal [i]. *)
Definition subscript {A : Type} (l : list A) (i : nat) : result A :=
  match nth_error l i with
  | Some x => inr x
  | None => inl IndexError
  end.

(** [s.split(sep)], which raises [ValueError] on an empty separator. *)
Definition str_split (s sep : string) : result (list string) :=
  match sep with
  | EmptyString => inl ValueError
  | _ => inr (Str.split sep s)
  end.

Definition rbind {A B : Type} (m : result A) (k : A -> result B) : result B :=
  match m with
  | inl e => inl e
  | inr a => k a
  end.

Declare Scope result_scope.
Delimit Scope result_scope with result.
Notation "x <- m ;; k" := (rbind m (fun x => k))
  (at level 61, m at next level, right associativity) : result_scope.

(** Lines 14 to 19: from [help_text] and [data] to [out].  [seg] names the
    intermediate [start_parts[1]]. *)
Definition splice (help_text data : string) : result string :=
  (start_parts <- str_split data tag_start ;;
   start <- subscript start_parts 0 ;;
   seg <- subscript start_parts 1 ;;
   end_parts <- str_split seg tag_end ;;
   end_ <- subscript end_parts 1 ;;
   inr (start ++ tag_start ++ fence ++ help_text ++ fence ++ tag_end ++ end_)
  )%result.

(** *** The process and its surroundings *)
(** *** The process and its surroundings *)

(** External actions, recorded in the order in which they happen. *)
Inductive event : Type :=
| GitDiff        (* git diff ./README.md *)
| RunSync        (* ./scripts/sync_readme.py is started *)
| RunCargoHelp   (* cargo run -- --help *)
| ReadReadme     (* open(readme_file, 'r') *)
| WriteReadme.   (* open(readme_file, 'w') *)

(** What a file holds: characters, or bytes that do not decode. *)
Inductive file_content : Type :=
| Text (chars : string)
| Undecodable.

(** What the scripts can observe and change: the content of [README.md]
    ([None] when the file does not exist), the text written so far to
    standard output, and the record of external actions. *)
Record world : Type := mkWorld {
  readme : option file_content;
  stdout : string;
  trace : list event
}.

Definition log (e : event) (w : world) : world :=
  mkWorld (readme w) (stdout w) (trace w ++ [e]).

Definition emit (s : string) (w : world) : world :=
  mkWorld (readme w) (stdout w ++ s) (trace w).

Definition store (c : file_content) (w : world) : world :=
  mkWorld (Some c) (stdout w) (trace w).

(** A Python computation: it changes the world and returns a value or ends
    with an exception; the world reached when the exception is raised is
    kept. *)
Definition py (A : Type) : Type := world -> world * result A.

Definition ret {A : Type} (a : A) : py A := fun w => (w, inr a).

Definition bind {A B : Type} (m : py A) (k : A -> py B) : py B :=
  fun w =>
    match m w with
    | (w', inl e) => (w', inl e)
    | (w', inr a) => k a w'
    end.

Definition lift {A : Type} (r : result A) : py A := fun w => (w, r).

Declare Scope py_scope.
Delimit Scope py_scope with py.
Notation "x <- m ;; k" := (bind m (fun x => k))
  (at level 61, m at next level, right associativity) : py_scope.

(** [print(s)]: the text followed by a line feed. *)
Definition print (s : string) : py unit :=
  fun w => (emit (s ++ String LF "") w, inr tt).

Definition starts_with_LF (s : string) : bool :=
  match s with
  | String c _ => Ascii.eqb c LF
  | EmptyString => false
  end.

(** Reading in text mode with the default [newline=None]: each carriage
    return followed by a line feed, and each other carriage return, is read
    as one line feed. *)
Fixpoint universal_newlines (s : string) : string :=
  match s with
  | EmptyString => EmptyString
  | String c s' =>
      if Ascii.eqb c CR then
        if starts_with_LF s' then universal_newlines s'
        else String LF (universal_newlines s')
      else String c (universal_newlines s')
  end.

(** [with open(readme_file, 'r') as file: data = file.read()]. *)
Definition read_readme : py string :=
  fun w =>
    let w := log ReadReadme w in
    match readme w with
    | Some (Text chars) => (w, inr (universal_newlines chars))
    | Some Undecodable => (w, inl UnicodeDecodeError)
    | None => (w, inl FileNotFoundError)
    end.

(** What the file system does with the text that is written. *)
Inductive write_outcome : Type :=
| Stored
    (* the file holds the text *)
| OpenFails
    (* open(readme_file, 'w') raises; the file is as it was *)
| WriteFails (remains : file_content).
    (* the file was truncated, then write or close raises; [remains] is what
       the file holds afterwards *)

Section Scripts.

(** The outcome of
    [subprocess.check_output(['cargo', 'run', '--', '--help']).decode('utf-8')]. *)
Variable cargo_help : result string.

(** The answer of the file system to writing a text to [README.md]. *)
Variable fs_write : string -> write_outcome.

(** The standard output of [git diff ./README.md], as a function of the
    content of the file in the working tree; the index it is compared with
    does not change during a run. *)
Variable git_diff : option file_content -> string.

Definition check_output_help : py string :=
  fun w => (log RunCargoHelp w, cargo_help).

(** [with open(readme_file, 'w') as file: file.write(out)]. *)
Definition write_readme (out : string) : py unit :=
  fun w =>
    let w := log WriteReadme w in
    match fs_write out with
    | Stored => (store (Text out) w, inr tt)
    | OpenFails => (w, inl OSError)
    | WriteFails remains => (store remains w, inl OSError)
    end.

(** The whole of [scripts/sync_readme.py]. *)
Definition sync_readme : py unit :=
  (help_text <- check_output_help ;;
   data <- read_readme ;;
   out <- lift (splice help_text data) ;;
   _ <- print out ;;
   write_readme out)%py.

(** ** [scripts/check_synced_readme.py] *)

(** Command substitution [$(...)] removes the trailing line feeds of the
    captured output. *)
Fixpoint strip_trailing_newlines (s : string) : string :=
  match s with
  | EmptyString => EmptyString
  | String c s' =>
      match strip_trailing_newlines s' with
      | EmptyString => if Ascii.eqb c LF then EmptyString else String c EmptyString
      | r => String c r
      end
  end.

(** [[ -z "$s" ]]. *)
Definition test_z (s : string) : bool :=
  match s with EmptyString => true | _ => false end.

(** [echo s]. *)
Definition echo (s : string) (w : world) : world :=
  emit (s ++ String LF "") w.

(** Runs [git diff $FILE] and returns what it prints. *)
Definition run_git_diff (w : world) : world * string :=
  let w := log GitDiff w in (w, git_diff (readme w)).

(** What happens when bash is asked to run [./scripts/sync_readme.py]. *)
Inductive launch_outcome : Type :=
| Started           (* the interpreter runs the script *)
| CannotExecute     (* bash reports status 126 *)
| CommandNotFound.  (* bash reports status 127 *)

Variable launch : launch_outcome.

(** [./scripts/sync_readme.py]: the status of the command.  A script that
    runs ends with status 0, or with status 1 after an uncaught exception. *)
Definition run_sync (w : world) : world * nat :=
  let w := log RunSync w in
  match launch with
  | Started =>
      match sync_readme w with
      | (w', inr _) => (w', 0)
      | (w', inl _) => (w', 1)
      end
  | CannotExecute => (w, 126)
  | CommandNotFound => (w, 127)
  end.

(** The whole script, under [set -e]: the final world and the exit status. *)
Definition check_synced_readme (w : world) : world * nat :=
  let (w, d) := run_git_diff w in
  if test_z (strip_trailing_newlines d) then
    let w := echo "Working directory clean" w in
    let (w, status) := run_sync w in
    match status with
    | S _ => (w, status)
    | O =>
        let (w, d) := run_git_diff w in
        if test_z (strip_trailing_newlines d) then
          (echo "README is up to date" w, 0)
        else
          let (w, d) := run_git_diff w in
          let w := emit d w in
          (echo "README not synced" w, 1)
    end
  else
    (echo "README file not clean" w, 1).

End Scripts.

(** ** Notions used by the statements *)

(** A well-formed README: [p], then the start marker, then [m], then the end
    marker, then [s], with no other occurrence of either marker. *)
Definition well_formed (R p m s : string) : Prop :=
  R = p ++ tag_start ++ m ++ tag_end ++ s /\
  Str.occurrences tag_start R = 1 /\
  Str.occurrences tag_end R = 1.

(** The fenced code block that wraps the help text. *)
Definition fenced (help_text : string) : string :=
  fence ++ help_text ++ fence.

(** [git diff] prints nothing or a patch that begins with a [diff --git]
    header; it never prints line feeds only. *)
Definition never_blank (git_diff : option file_content -> string) : Prop :=
  forall f, strip_trailing_newlines (git_diff f) = "" -> git_diff f = "".

(** [git diff] prints nothing exactly when the file in the working tree
    has the committed content. *)
Definition detects_changes
           (committed : string) (git_diff : option file_content -> string) : Prop :=
  forall f, git_diff f = "" <-> f = Some (Text committed).

(** The world in which the check script starts the sync script. *)
Definition at_sync (w : world) : world :=
  log RunSync (echo "Working directory clean" (log GitDiff w)).

(** ** Data for the examples *)

(** A file system on which every write succeeds. *)
Definition writable : string -> write_outcome := fun _ => Stored.

(** A README with a title, a stale block and a footer. *)
Definition README_old : string :=
  "# gazer" ++ String LF "" ++ tag_start ++ fenced "OLDTEXT" ++ tag_end ++
  String LF "" ++ "## License".

(** A well-formed README with lines that end in carriage return and line
    feed, whose block is the fenced help text ["OLDTEXT"]. *)
Definition README_crlf : string :=
  "# gazer" ++ String CR (String LF "") ++ tag_start ++ fenced "OLDTEXT" ++
  tag_end ++ String CR (String LF "") ++ "## License".

(** A README in which the block is followed by a second start marker. *)
Definition README_two_starts : string :=
  "a" ++ tag_start ++ "b" ++ tag_end ++ "c" ++ tag_start ++ "d".

(** A README that holds, between its markers, a fenced help text that is the
    start marker itself. *)
Definition README_marker_help : string :=
  tag_start ++ fenced tag_start ++ tag_end.

(** A README whose only end marker stands before its start marker. *)
Definition README_end_first : string :=
  tag_end ++ "x" ++ tag_start ++ "y".

(** A README with a repeated start marker and a repeated end marker. *)
Definition README_repeated : string :=
  "a" ++ tag_start ++ "b" ++ tag_end ++ "c" ++ tag_end ++ "d" ++
  tag_start ++ "e".

(** [README_old] in a fresh process. *)
Definition world_old : world := mkWorld (Some (Text README_old)) "" [].

(** [README_crlf] in a fresh process. *)
Definition world_crlf : world := mkWorld (Some (Text README_crlf)) "" [].

(** A [git diff]: nothing when the file in the working tree has the committed
    content, a patch header otherwise. *)
Definition git_diff_against
           (committed : string) (f : option file_content) : string :=
  match f with
  | Some (Text worktree) =>
      if String.eqb worktree committed then ""
      else "diff --git a/README.md b/README.md" ++ String LF ""
  | _ => "diff --git a/README.md b/README.md" ++ String LF ""
  end.


(** * Facts about the string operations *)

Module StrFacts.
Import Str.

Lemma app_nil_r (s : string) : s ++ "" = s.
Proof. induction s as [|c s IH]; simpl; [reflexivity | now rewrite IH]. Qed.

Lemma app_assoc (a b c : string) : (a ++ b) ++ c = a ++ b ++ c.
Proof. induction a as [|x a IH]; simpl; [reflexivity | now rewrite IH]. Qed.

Lemma app_length (a b : string) :
  String.length (a ++ b) = String.length a + String.length b.
Proof. induction a as [|x a IH]; simpl; [reflexivity | now rewrite IH]. Qed.

(** ** [strip_prefix] and [startswith] *)

Lemma strip_prefix_app (sep b : string) : strip_prefix sep (sep ++ b) = Some b.
Proof.
  induction sep as [|a sep IH]; simpl; [reflexivity|].
  now rewrite Ascii.eqb_refl.
Qed.

Lemma strip_prefix_inv (sep s r : string) :
  strip_prefix sep s = Some r -> s = sep ++ r.
Proof.
  revert s; induction sep as [|a sep IH]; intros s; simpl.
  - now intros [= ->].
  - destruct s as [|b s]; [discriminate|].
    destruct (Ascii.eqb_spec a b) as [->|]; [|discriminate].
    intros E. now rewrite (IH _ E).
Qed.

Lemma startswith_nil (s : string) : startswith "" s = true.
Proof. reflexivity. Qed.

Lemma startswith_empty (a : ascii) (p : string) :
  startswith (String a p) "" = false.
Proof. reflexivity. Qed.

Lemma startswith_cons (a b : ascii) (p s : string) :
  startswith (String a p) (String b s) = Ascii.eqb a b && startswith p s.
Proof. unfold startswith; simpl. now destruct (Ascii.eqb a b). Qed.

Lemma startswith_self (sep b : string) : startswith sep (sep ++ b) = true.
Proof. unfold startswith. now rewrite strip_prefix_app. Qed.

Lemma startswith_app_l (sep u v : string) :
  startswith sep u = true -> startswith sep (u ++ v) = true.
Proof.
  revert u; induction sep as [|a sep IH]; intros u; [reflexivity|].
  destruct u as [|b u]; [discriminate|]. simpl append.
  rewrite !startswith_cons, !andb_true_iff. intros [? ?]; auto.
Qed.

Lemma startswith_long (sep u v : string) :
  String.length sep <= String.length u ->
  startswith sep (u ++ v) = startswith sep u.
Proof.
  revert u; induction sep as [|a sep IH]; intros u L; [reflexivity|].
  destruct u as [|b u]; simpl in L; [lia|]. simpl append.
  rewrite !startswith_cons, IH by lia. reflexivity.
Qed.

Lemma startswith_short (sep s : string) :
  String.length s < String.length sep -> startswith sep s = false.
Proof.
  revert s; induction sep as [|a sep IH]; intros s L; simpl in L; [lia|].
  destruct s as [|b s]; [reflexivity|]. simpl in L.
  rewrite startswith_cons, IH by lia. apply andb_false_r.
Qed.

Lemma startswith_barrier (sep u b : string) (c : ascii) :
  mem c sep = false ->
  startswith sep (u ++ String c b) = startswith sep u.
Proof.
  revert u; induction sep as [|a sep IH]; intros u M; [reflexivity|].
  simpl in M. apply orb_false_iff in M as [Mc M].
  destruct u as [|x u]; simpl append.
  - rewrite startswith_cons, startswith_empty.
    rewrite Ascii.eqb_sym, Mc. reflexivity.
  - rewrite !startswith_cons, IH by assumption. reflexivity.
Qed.

(** ** [occurrences] *)

Lemma occ_cons (sep s : string) (c : ascii) :
  occurrences sep (String c s) =
  (if startswith sep (String c s) then 1 else 0) + occurrences sep s.
Proof. reflexivity. Qed.

Lemma occ_short (sep s : string) :
  String.length s < String.length sep -> occurrences sep s = 0.
Proof.
  induction s as [|c s IH]; intros L.
  - simpl. now rewrite startswith_short.
  - rewrite occ_cons, startswith_short by assumption.
    simpl in L. rewrite IH by lia. reflexivity.
Qed.

Lemma occ_suffix (sep a b : string) :
  occurrences sep b <= occurrences sep (a ++ b).
Proof.
  induction a as [|c a IH]; simpl append; [lia|].
  rewrite occ_cons. lia.
Qed.

Lemma occ_prefix (sep a b : string) :
  occurrences sep a <= occurrences sep (a ++ b).
Proof.
  induction a as [|c a IH]; simpl append.
  - destruct sep; simpl.
    + destruct b; simpl; lia.
    + lia.
  - rewrite !occ_cons.
    destruct (startswith sep (String c a)) eqn:E.
    + change (String c (a ++ b)) with (String c a ++ b).
      rewrite (startswith_app_l _ _ _ E). lia.
    + lia.
Qed.

Lemma cut_unfold (sep s : string) :
  cut sep s =
  match strip_prefix sep s with
  | Some rest => Some ("", rest)
  | None =>
      match s with
      | "" => None
      | String c s' =>
          match cut sep s' with
          | Some (a, b) => Some (String c a, b)
          | None => None
          end
      end
  end.
Proof. destruct s; reflexivity. Qed.

Lemma split_n_S (f : nat) (sep s : string) :
  split_n (S f) sep s =
  match cut sep s with
  | None => [s]
  | Some (a, b) => a :: split_n f sep b
  end.
Proof. reflexivity. Qed.

Section NonEmptySeparator.

Variable sep : string.
Hypothesis sep_nonempty : sep <> "".

Lemma sep_length : 1 <= String.length sep.
Proof. destruct sep; [congruence | simpl; lia]. Qed.

Lemma occ_self : occurrences sep sep = 1.
Proof.
  destruct sep as [|c p] eqn:E; [congruence|].
  rewrite occ_cons.
  rewrite <- (app_nil_r (String c p)) at 2.
  rewrite startswith_self, occ_short by (simpl; lia). reflexivity.
Qed.

(** The occurrence written at the end of [a ++ sep] counts. *)
Lemma occ_snoc_sep (a : string) :
  occurrences sep a + 1 <= occurrences sep (a ++ sep).
Proof.
  induction a as [|c a IH]; simpl append.
  - rewrite occ_self. destruct sep; [congruence | simpl; lia].
  - rewrite !occ_cons.
    destruct (startswith sep (String c a)) eqn:E.
    + change (String c (a ++ sep)) with (String c a ++ sep).
      rewrite (startswith_app_l _ _ _ E). lia.
    + lia.
Qed.

(** Occurrences up to and including the one at [a], and those after it. *)
Lemma occ_app_sep (a b : string) :
  occurrences sep (a ++ sep ++ b) =
  occurrences sep (a ++ sep) +
  occurrences sep (match sep with String _ p => p ++ b | _ => b end).
Proof.
  induction a as [|c a IH]; simpl append.
  - rewrite occ_self.
    destruct sep as [|c p] eqn:E; [congruence|]. simpl append.
    rewrite occ_cons.
    change (String c (p ++ b)) with (String c p ++ b).
    now rewrite startswith_self.
  - rewrite !occ_cons, IH.
    change (String c (a ++ sep ++ b)) with (String c a ++ sep ++ b).
    change (String c (a ++ sep)) with (String c a ++ sep).
    rewrite <- (app_assoc (String c a) sep b).
    rewrite (startswith_long sep (String c a ++ sep) b)
      by (rewrite app_length; lia).
    lia.
Qed.

Lemma occ_after (b : string) :
  occurrences sep b <=
  occurrences sep (match sep with String _ p => p ++ b | _ => b end).
Proof. destruct sep; [lia | apply occ_suffix]. Qed.

(** A character that is not in [sep] separates the occurrences on its
    left from those on its right. *)
Lemma occ_barrier (a b : string) (c : ascii) :
  mem c sep = false ->
  occurrences sep (a ++ String c b) = occurrences sep a + occurrences sep b.
Proof.
  intros M. induction a as [|x a IH]; simpl append.
  - rewrite occ_cons.
    pose proof (startswith_barrier sep "" b c M) as E.
    simpl append in E. rewrite E. simpl occurrences. lia.
  - rewrite !occ_cons, IH.
    change (String x (a ++ String c b)) with (String x a ++ String c b).
    rewrite (startswith_barrier _ _ _ _ M). lia.
Qed.

(** ** [cut] *)

Lemma cut_none (s : string) : occurrences sep s = 0 -> cut sep s = None.
Proof.
  induction s as [|c s IH].
  - destruct sep; [congruence | reflexivity].
  - rewrite occ_cons. intros O.
    assert (E : startswith sep (String c s) = false)
      by (destruct (startswith sep (String c s)); [lia | reflexivity]).
    rewrite E in O. simpl in O.
    unfold startswith in E. simpl cut.
    destruct (strip_prefix sep (String c s)); [discriminate|].
    now rewrite IH.
Qed.

Lemma cut_some (s : string) :
  occurrences sep s <> 0 -> exists a b, cut sep s = Some (a, b).
Proof.
  induction s as [|c s IH].
  - destruct sep; [congruence | simpl; lia].
  - rewrite occ_cons. intros O. simpl cut.
    unfold startswith in O.
    destruct (strip_prefix sep (String c s)) as [r|]; [eauto|].
    destruct IH as (a & b & ->); [simpl in O; lia | eauto].
Qed.

Lemma cut_inv (s a b : string) : cut sep s = Some (a, b) -> s = a ++ sep ++ b.
Proof.
  revert a; induction s as [|c s IH]; intros a; simpl cut.
  - destruct (strip_prefix sep "") eqn:E; [|discriminate].
    intros [= <- <-]. exact (strip_prefix_inv _ _ _ E).
  - destruct (strip_prefix sep (String c s)) eqn:E.
    + intros [= <- <-]. exact (strip_prefix_inv _ _ _ E).
    + destruct (cut sep s) as [[a' b']|]; [|discriminate].
      intros [= <- <-]. simpl. now rewrite (IH a' eq_refl).
Qed.

(** The leftmost occurrence is the one at [a] when [a ++ sep] has no
    other. *)
Lemma cut_first (a b : string) :
  occurrences sep (a ++ sep) = 1 -> cut sep (a ++ sep ++ b) = Some (a, b).
Proof.
  induction a as [|c a IH]; simpl append.
  - intros _. now rewrite cut_unfold, strip_prefix_app.
  - rewrite occ_cons. intros O.
    pose proof (occ_snoc_sep a) as G.
    assert (E : startswith sep (String c (a ++ sep)) = false)
      by (destruct (startswith sep (String c (a ++ sep))); [lia | reflexivity]).
    rewrite E in O. simpl in O.
    change (String c (a ++ sep)) with (String c a ++ sep) in E.
    rewrite <- (startswith_long sep _ b) in E by (rewrite app_length; lia).
    rewrite app_assoc in E. simpl append in E.
    unfold startswith in E. simpl cut.
    destruct (strip_prefix sep (String c (a ++ sep ++ b))); [discriminate|].
    now rewrite (IH O).
Qed.

Lemma cut_nil : cut sep "" = None.
Proof. destruct sep; [congruence | reflexivity]. Qed.

(** ** [split] *)

Lemma split_n_enough (f g : nat) (s : string) :
  String.length s <= f -> String.length s <= g ->
  split_n f sep s = split_n g sep s.
Proof.
  revert g s; induction f as [|f IH]; intros g s Lf Lg.
  - destruct s; simpl in Lf; [|lia].
    destruct g; [reflexivity|].
    now rewrite split_n_S, cut_nil.
  - destruct g as [|g].
    + destruct s; simpl in Lg; [|lia].
      now rewrite split_n_S, cut_nil.
    + rewrite !split_n_S. destruct (cut sep s) as [[a b]|] eqn:E; [|reflexivity].
      apply cut_inv in E. subst s.
      rewrite !app_length in Lf, Lg. pose proof sep_length.
      f_equal. apply IH; lia.
Qed.

(** The equation of [str.split]: cut at the leftmost separator and split
    the rest. *)
Lemma split_eq (s : string) :
  split sep s =
  match cut sep s with
  | None => [s]
  | Some (a, b) => a :: split sep b
  end.
Proof.
  unfold split. destruct s as [|c s].
  - now rewrite cut_nil.
  - simpl String.length. rewrite split_n_S.
    destruct (cut sep (String c s)) as [[a b]|] eqn:E; [|reflexivity].
    f_equal. apply split_n_enough.
    + apply cut_inv in E. apply (f_equal String.length) in E.
      rewrite !app_length in E. simpl in E. pose proof sep_length. lia.
    + lia.
Qed.

Lemma split_none (s : string) : occurrences sep s = 0 -> split sep s = [s].
Proof. intros O. now rewrite split_eq, cut_none. Qed.

Lemma split_first (a b : string) :
  occurrences sep (a ++ sep) = 1 ->
  split sep (a ++ sep ++ b) = a :: split sep b.
Proof. intros O. now rewrite split_eq, cut_first. Qed.

Lemma split_not_nil (s : string) : split sep s <> [].
Proof. rewrite split_eq. destruct (cut sep s) as [[a b]|]; discriminate. Qed.

(** ** [text_after] *)

Lemma text_after_none (s : string) :
  occurrences sep s = 0 -> text_after sep s = None.
Proof.
  induction s as [|c s IH].
  - destruct sep; [congruence | reflexivity].
  - rewrite occ_cons. intros O.
    assert (E : startswith sep (String c s) = false)
      by (destruct (startswith sep (String c s)); [lia | reflexivity]).
    rewrite E in O. simpl in O. simpl text_after.
    rewrite IH by assumption.
    unfold startswith in E.
    now destruct (strip_prefix sep (String c s)).
Qed.

Lemma text_after_app (a t r : string) :
  text_after sep t = Some r -> text_after sep (a ++ t) = Some r.
Proof.
  intros E. induction a as [|c a IH]; simpl append; [assumption|].
  simpl text_after. now rewrite IH.
Qed.

End NonEmptySeparator.

Lemma text_after_last (c : ascii) (p a b : string) :
  occurrences (String c p) (p ++ b) = 0 ->
  text_after (String c p) (a ++ String c p ++ b) = Some b.
Proof.
  intros O. apply text_after_app.
  simpl append. simpl text_after.
  rewrite text_after_none by (assumption || discriminate).
  exact (strip_prefix_app (String c p) b).
Qed.

End StrFacts.


(** * Leftmost cuts and the segments of a split *)

Module SplitFacts.
Import Str StrFacts.

Lemma split_n_not_nil (f : nat) (sep s : string) : split_n f sep s <> [].
Proof.
  destruct f as [|f]; simpl; [discriminate|].
  destruct (cut sep s) as [[a b]|]; discriminate.
Qed.

Lemma cut_none_occ (sep s : string) :
  cut sep s = None -> occurrences sep s = 0.
Proof.
  induction s as [|c s IH]; rewrite cut_unfold.
  - simpl. unfold startswith.
    destruct (strip_prefix sep ""); [discriminate | reflexivity].
  - rewrite occ_cons. unfold startswith.
    destruct (strip_prefix sep (String c s)); [discriminate|].
    destruct (cut sep s) as [[a b]|]; [discriminate|].
    intros _. now rewrite IH.
Qed.

(** The occurrence found by [cut] is the leftmost one. *)
Lemma cut_leftmost (sep s a b : string) :
  sep <> "" -> cut sep s = Some (a, b) -> occurrences sep (a ++ sep) = 1.
Proof.
  intros N. revert a. induction s as [|c s IH]; intros a; rewrite cut_unfold.
  - destruct (strip_prefix sep ""); [|discriminate].
    intros [= <- <-]. apply (occ_self sep N).
  - destruct (strip_prefix sep (String c s)) eqn:P.
    + intros [= <- <-]. apply (occ_self sep N).
    + destruct (cut sep s) as [[a' b']|] eqn:C; [|discriminate].
      intros [= <- <-]. simpl append. rewrite occ_cons, (IH a' eq_refl).
      apply cut_inv in C. subst s.
      assert (E : startswith sep (String c a' ++ sep) = false).
      { rewrite <- (startswith_long sep (String c a' ++ sep) b')
          by (rewrite app_length; lia).
        rewrite app_assoc. unfold startswith. simpl append. now rewrite P. }
      simpl append in E. now rewrite E.
Qed.

Lemma split_n_segment_free (sep : string) (f : nat) (s x : string) :
  sep <> "" -> String.length s <= f ->
  In x (split_n f sep s) -> occurrences sep x = 0.
Proof.
  intros N. revert s. induction f as [|f IH]; intros s L.
  - destruct s; simpl in L; [|lia]. intros [<-|[]].
    destruct sep; [congruence | reflexivity].
  - rewrite split_n_S. destruct (cut sep s) as [[a b]|] eqn:C.
    + intros [<-|I].
      * pose proof (cut_leftmost sep s a b N C).
        pose proof (occ_snoc_sep sep N a). lia.
      * apply (IH b); [|assumption].
        apply cut_inv in C. subst s. rewrite !app_length in L.
        pose proof (sep_length sep N). lia.
    + intros [<-|[]]. now apply cut_none_occ.
Qed.

(** The first segment of a split is a prefix of the text. *)
Lemma split_head_prefix (sep s x : string) (more : list string) :
  sep <> "" -> split sep s = x :: more -> exists t, s = x ++ t.
Proof.
  intros N. rewrite (split_eq sep N).
  destruct (cut sep s) as [[a b]|] eqn:C.
  - intros [= <- _]. apply cut_inv in C. eauto.
  - intros [= <- _]. exists "". now rewrite app_nil_r.
Qed.

Lemma split_segments_free_aux (sep s x : string) :
  sep <> "" -> In x (split sep s) -> occurrences sep x = 0.
Proof.
  intros N I. apply (split_n_segment_free sep (String.length s) s x N); auto.
Qed.

End SplitFacts.


(** * Universal newlines *)

Module Newlines.
Import Str StrFacts.

Lemma mem_app (c : ascii) (a b : string) :
  mem c (a ++ b) = mem c a || mem c b.
Proof.
  induction a as [|x a IH]; simpl; [reflexivity|].
  now rewrite IH, orb_assoc.
Qed.

Lemma mem_cons (c d : ascii) (s : string) :
  mem c (String d s) = Ascii.eqb c d || mem c s.
Proof. reflexivity. Qed.

Lemma un_cons_other (c : ascii) (s : string) :
  Ascii.eqb c CR = false ->
  universal_newlines (String c s) = String c (universal_newlines s).
Proof. intros E. simpl. now rewrite E. Qed.

Lemma un_cons_cr (s : string) :
  universal_newlines (String CR s) =
  if starts_with_LF s then universal_newlines s
  else String LF (universal_newlines s).
Proof. reflexivity. Qed.

(** What is read holds no carriage return. *)
Lemma un_no_cr (s : string) : mem CR (universal_newlines s) = false.
Proof.
  induction s as [|c s IH]; [reflexivity|].
  destruct (Ascii.eqb_spec c CR) as [->|N].
  - rewrite un_cons_cr. destruct (starts_with_LF s); [assumption|].
    rewrite mem_cons, IH. reflexivity.
  - rewrite un_cons_other by now apply Ascii.eqb_neq.
    rewrite mem_cons, IH, orb_false_r. apply Ascii.eqb_neq. congruence.
Qed.

(** A text without carriage return is read as it is. *)
Lemma un_id (s : string) : mem CR s = false -> universal_newlines s = s.
Proof.
  induction s as [|c s IH]; [reflexivity|].
  rewrite mem_cons. intros M. apply orb_false_iff in M as [Mc M].
  rewrite un_cons_other by now rewrite Ascii.eqb_sym.
  now rewrite IH.
Qed.

Lemma startswith_un (sep x : string) :
  mem CR sep = false -> mem LF sep = false ->
  startswith sep (universal_newlines x) = startswith sep x.
Proof.
  revert x. induction sep as [|a sep IH]; intros x Mc Ml; [reflexivity|].
  rewrite mem_cons in Mc, Ml.
  apply orb_false_iff in Mc as [Ac Mc]. apply orb_false_iff in Ml as [Al Ml].
  destruct x as [|c x]; [reflexivity|].
  destruct (Ascii.eqb_spec c CR) as [->|N].
  - rewrite un_cons_cr, (startswith_cons a CR).
    rewrite (Ascii.eqb_sym a CR), Ac. cbn [andb].
    destruct (starts_with_LF x) eqn:SL.
    + destruct x as [|d x]; [discriminate|]. cbn [starts_with_LF] in SL.
      apply Ascii.eqb_eq in SL. subst d.
      rewrite un_cons_other by reflexivity. rewrite startswith_cons.
      now rewrite (Ascii.eqb_sym a LF), Al.
    + rewrite startswith_cons. now rewrite (Ascii.eqb_sym a LF), Al.
  - rewrite un_cons_other by now apply Ascii.eqb_neq.
    rewrite !startswith_cons, IH by assumption. reflexivity.
Qed.

(** Reading does not create, remove or move an occurrence of a text that
    holds neither a carriage return nor a line feed. *)
Lemma occ_un (sep s : string) :
  sep <> "" -> mem CR sep = false -> mem LF sep = false ->
  occurrences sep (universal_newlines s) = occurrences sep s.
Proof.
  intros N Mc Ml. induction s as [|c s IH]; [reflexivity|].
  assert (F : forall y, startswith sep (String CR y) = false).
  { intros y. destruct sep as [|a sep']; [congruence|].
    rewrite mem_cons in Mc. apply orb_false_iff in Mc as [Ac _].
    rewrite startswith_cons. now rewrite (Ascii.eqb_sym a CR), Ac. }
  assert (G : forall y, startswith sep (String LF y) = false).
  { intros y. destruct sep as [|a sep']; [congruence|].
    rewrite mem_cons in Ml. apply orb_false_iff in Ml as [Al _].
    rewrite startswith_cons. now rewrite (Ascii.eqb_sym a LF), Al. }
  destruct (Ascii.eqb_spec c CR) as [->|Nc].
  - rewrite un_cons_cr, (occ_cons sep s CR), F.
    destruct (starts_with_LF s); [exact IH|].
    now rewrite occ_cons, G, IH.
  - pose proof (startswith_un sep (String c s) Mc Ml) as E.
    rewrite un_cons_other in E by now apply Ascii.eqb_neq.
    rewrite un_cons_other by now apply Ascii.eqb_neq.
    now rewrite !occ_cons, E, IH.
Qed.

Lemma starts_with_LF_app (a b : string) (c : ascii) :
  Ascii.eqb c LF = false ->
  starts_with_LF (a ++ String c b) = starts_with_LF a.
Proof. intros E. destruct a; simpl; [assumption | reflexivity]. Qed.

Lemma un_app (a b : string) (c : ascii) :
  Ascii.eqb c LF = false ->
  universal_newlines (a ++ String c b) =
  universal_newlines a ++ universal_newlines (String c b).
Proof.
  intros E. induction a as [|x a IH]; [reflexivity|].
  simpl append. destruct (Ascii.eqb_spec x CR) as [->|N].
  - rewrite !un_cons_cr, starts_with_LF_app by assumption.
    destruct (starts_with_LF a); [exact IH|].
    simpl append. now rewrite IH.
  - rewrite !un_cons_other by now apply Ascii.eqb_neq.
    simpl append. now rewrite IH.
Qed.

Lemma un_prefix (t b : string) :
  mem CR t = false ->
  universal_newlines (t ++ b) = t ++ universal_newlines b.
Proof.
  induction t as [|c t IH]; [reflexivity|].
  rewrite mem_cons. intros M. apply orb_false_iff in M as [Mc M].
  simpl append. rewrite un_cons_other by now rewrite Ascii.eqb_sym.
  now rewrite IH.
Qed.

(** A marker stays where it is, between the readings of the texts around
    it. *)
Lemma un_around (a t b : string) :
  t <> "" -> mem CR t = false -> mem LF t = false ->
  universal_newlines (a ++ t ++ b) =
  universal_newlines a ++ t ++ universal_newlines b.
Proof.
  intros N Mc Ml. destruct t as [|c t']; [congruence|].
  assert (E : Ascii.eqb c LF = false).
  { rewrite mem_cons in Ml. apply orb_false_iff in Ml as [Al _].
    now rewrite Ascii.eqb_sym. }
  simpl append. rewrite (un_app a (t' ++ b) c E). f_equal.
  exact (un_prefix (String c t') b Mc).
Qed.

Lemma un_snoc (a t : string) :
  t <> "" -> mem CR t = false -> mem LF t = false ->
  universal_newlines (a ++ t) = universal_newlines a ++ t.
Proof.
  intros N Mc Ml. pose proof (un_around a t "" N Mc Ml) as E.
  simpl universal_newlines in E. now rewrite !app_nil_r in E.
Qed.

End Newlines.


(** * The splice of [sync_readme.py] *)

Module Splice.
Import Str StrFacts SplitFacts Newlines.

Lemma tag_start_nonempty : tag_start <> "".
Proof. discriminate. Qed.

Lemma tag_end_nonempty : tag_end <> "".
Proof. discriminate. Qed.

#[local] Hint Resolve tag_start_nonempty tag_end_nonempty : core.

Lemma str_split_ok (s sep : string) :
  sep <> "" -> str_split s sep = inr (split sep s).
Proof. destruct sep; [congruence | reflexivity]. Qed.

(** *** The three outcomes of lines 14 to 19 *)

Lemma splice_parts (H data start seg e0 e1 : string) (more more' : list string) :
  split tag_start data = start :: seg :: more ->
  split tag_end seg = e0 :: e1 :: more' ->
  splice H data =
  inr (start ++ tag_start ++ fence ++ H ++ fence ++ tag_end ++ e1).
Proof.
  intros E1 E2. unfold splice.
  rewrite str_split_ok, E1 by auto. cbn [rbind subscript nth_error].
  rewrite str_split_ok, E2 by auto. reflexivity.
Qed.

Lemma splice_no_start (H data start : string) :
  split tag_start data = [start] -> splice H data = inl IndexError.
Proof.
  intros E1. unfold splice. rewrite str_split_ok, E1 by auto. reflexivity.
Qed.

Lemma splice_no_end (H data start seg e0 : string) (more : list string) :
  split tag_start data = start :: seg :: more ->
  split tag_end seg = [e0] ->
  splice H data = inl IndexError.
Proof.
  intros E1 E2. unfold splice.
  rewrite str_split_ok, E1 by auto. cbn [rbind subscript nth_error].
  rewrite str_split_ok, E2 by auto. reflexivity.
Qed.

(** *** Counting occurrences around one written separator *)

Lemma occ_one_tight (sep a b : string) :
  sep <> "" ->
  occurrences sep (a ++ sep ++ b) <= 1 ->
  occurrences sep (a ++ sep) = 1 /\
  occurrences sep a = 0 /\
  occurrences sep b = 0 /\
  occurrences sep (match sep with String _ p => p ++ b | _ => b end) = 0.
Proof.
  intros N L. rewrite (occ_app_sep sep N) in L.
  pose proof (occ_snoc_sep sep N a). pose proof (occ_after sep N b). lia.
Qed.

Lemma occ_two_tight (sep a b c : string) :
  sep <> "" ->
  occurrences sep (a ++ sep ++ b ++ sep ++ c) <= 2 ->
  occurrences sep (a ++ sep) = 1 /\
  occurrences sep (b ++ sep) = 1 /\
  occurrences sep c = 0.
Proof.
  intros N L. rewrite (occ_app_sep sep N) in L.
  pose proof (occ_snoc_sep sep N a).
  pose proof (occ_after sep N (b ++ sep ++ c)) as A.
  rewrite (occ_app_sep sep N b c) in A.
  pose proof (occ_snoc_sep sep N b). pose proof (occ_after sep N c). lia.
Qed.

(** The fence contains no character of a marker. *)
Lemma occ_fence (sep x y : string) :
  mem LF sep = false -> 3 < String.length sep ->
  occurrences sep (x ++ fence ++ y) = occurrences sep x + occurrences sep y.
Proof.
  intros M L. unfold fence. simpl append.
  rewrite (occ_barrier sep x _ LF M).
  change (String "`" (String "`" (String "`" (String LF y))))
    with ("```" ++ String LF y).
  rewrite (occ_barrier sep "```" y LF M).
  rewrite (occ_short sep "```") by (simpl; lia). lia.
Qed.

Lemma occ_fenced (sep x H y : string) :
  mem LF sep = false -> 3 < String.length sep ->
  occurrences sep (x ++ fenced H ++ y) =
  occurrences sep x + occurrences sep H + occurrences sep y.
Proof.
  intros M L. unfold fenced.
  rewrite !app_assoc, !occ_fence by assumption. lia.
Qed.

(** *** The splice of a document cut at its markers *)

(** What the well-formedness of [R] gives for each marker. *)
Lemma well_formed_facts (R p m s : string) :
  well_formed R p m s ->
  occurrences tag_start (p ++ tag_start) = 1 /\
  occurrences tag_start (m ++ tag_end ++ s) = 0 /\
  occurrences tag_end (p ++ tag_start) = 0 /\
  occurrences tag_end (m ++ tag_end) = 1 /\
  occurrences tag_end s = 0 /\
  occurrences tag_end ("!-- HELP_END -->" ++ s) = 0.
Proof.
  intros (-> & Os & Oe).
  assert (Ls : occurrences tag_start (p ++ tag_start ++ m ++ tag_end ++ s) <= 1)
    by lia.
  destruct (occ_one_tight _ _ _ tag_start_nonempty Ls) as (S1 & _ & S2 & _).
  assert (Le : occurrences tag_end (((p ++ tag_start) ++ m) ++ tag_end ++ s) <= 1)
    by (rewrite !app_assoc; lia).
  destruct (occ_one_tight _ _ _ tag_end_nonempty Le) as (E1 & E0 & E2 & E3).
  pose proof (occ_prefix tag_end (p ++ tag_start) m).
  rewrite app_assoc in E1.
  pose proof (occ_suffix tag_end (p ++ tag_start) (m ++ tag_end)).
  pose proof (occ_snoc_sep tag_end tag_end_nonempty m).
  repeat split; try assumption; lia.
Qed.

Lemma splice_cut (H p m s : string) :
  occurrences tag_start (p ++ tag_start) = 1 ->
  occurrences tag_start (m ++ tag_end ++ s) = 0 ->
  occurrences tag_end (m ++ tag_end) = 1 ->
  occurrences tag_end s = 0 ->
  splice H (p ++ tag_start ++ m ++ tag_end ++ s) =
  inr (p ++ tag_start ++ fence ++ H ++ fence ++ tag_end ++ s).
Proof.
  intros S1 S2 E1 E2.
  apply splice_parts with (seg := m ++ tag_end ++ s) (e0 := m)
                          (more := []) (more' := []).
  - rewrite split_first, split_none by auto. reflexivity.
  - rewrite split_first, split_none by auto. reflexivity.
Qed.

Lemma splice_well_formed (H R p m s : string) :
  well_formed R p m s ->
  splice H R = inr (p ++ tag_start ++ fenced H ++ tag_end ++ s).
Proof.
  intros W. destruct (well_formed_facts _ _ _ _ W) as (S1 & S2 & _ & E1 & E2 & _).
  destruct W as (-> & _). unfold fenced. rewrite !app_assoc.
  now apply splice_cut.
Qed.

(** Segments of a split are pieces of the text that was split. *)
Lemma split_n_occ (t sep : string) (f : nat) (s x : string) :
  In x (split_n f sep s) -> occurrences t x <= occurrences t s.
Proof.
  revert s; induction f as [|f IH]; intros s; simpl split_n.
  - intros [<-|[]]. lia.
  - destruct (cut sep s) as [[a b]|] eqn:E.
    + apply cut_inv in E. subst s. intros [<-|I].
      * apply occ_prefix.
      * apply IH in I. rewrite <- app_assoc.
        pose proof (occ_suffix t (a ++ sep) b). lia.
    + intros [<-|[]]. lia.
Qed.

Lemma splice_marker_absent (H R : string) :
  occurrences tag_start R = 0 \/ occurrences tag_end R = 0 ->
  splice H R = inl IndexError.
Proof.
  intros [O|O].
  - apply splice_no_start with (start := R). now apply split_none.
  - destruct (split tag_start R) as [|start [|seg more]] eqn:E.
    + now apply split_not_nil in E.
    + now apply splice_no_start with (start := start).
    + apply splice_no_end with (start := start) (seg := seg) (e0 := seg) (more := more);
        [assumption|].
      apply split_none; [auto|].
      pose proof (split_n_occ tag_end tag_start (String.length R) R seg) as I.
      fold (split tag_start R) in I. rewrite E in I.
      specialize (I (or_intror (or_introl eq_refl))). lia.
Qed.



(** The splice, by the shape of its two splits. *)
Lemma splice_shape (H data : string) :
  splice H data =
  match split tag_start data with
  | start :: seg :: _ =>
      match split tag_end seg with
      | _ :: e :: _ =>
          inr (start ++ tag_start ++ fence ++ H ++ fence ++ tag_end ++ e)
      | _ => inl IndexError
      end
  | _ => inl IndexError
  end.
Proof.
  unfold splice. rewrite str_split_ok by exact tag_start_nonempty.
  cbn [rbind subscript nth_error].
  destruct (split tag_start data) as [|start [|seg more]]; try reflexivity.
  cbn [rbind subscript nth_error].
  rewrite str_split_ok by exact tag_end_nonempty.
  cbn [rbind subscript nth_error].
  destruct (split tag_end seg) as [|e0 [|e more']]; reflexivity.
Qed.

(** What a successful splice tells about its input and its output. *)
Lemma splice_success (H data out : string) :
  splice H data = inr out ->
  exists start rest e,
    out = start ++ tag_start ++ fence ++ H ++ fence ++ tag_end ++ e /\
    cut tag_start data = Some (start, rest) /\
    occurrences tag_start (start ++ tag_start) = 1 /\
    occurrences tag_start (tag_end ++ e) = 0 /\
    occurrences tag_end e = 0 /\
    exists e0 t u,
      data = start ++ tag_start ++ (e0 ++ tag_end ++ e ++ t) ++ u.
Proof.
  rewrite splice_shape.
  pose proof (split_eq tag_start tag_start_nonempty data) as S1.
  destruct (cut tag_start data) as [[start rest]|] eqn:C1.
  2:{ rewrite S1. discriminate. }
  rewrite S1. destruct (split tag_start rest) as [|seg more] eqn:S2.
  { now apply split_not_nil in S2. }
  destruct (split tag_end seg) as [|e0 [|e more']] eqn:S3; try discriminate.
  intros [= <-]. exists start, rest, e.
  assert (Fseg : occurrences tag_start seg = 0).
  { apply (split_segments_free_aux tag_start rest seg tag_start_nonempty).
    rewrite S2. now left. }
  pose proof (split_eq tag_end tag_end_nonempty seg) as S4. rewrite S3 in S4.
  destruct (cut tag_end seg) as [[a b]|] eqn:C3; [|discriminate].
  injection S4 as <- S5. symmetry in S5.
  destruct (split_head_prefix tag_end b e more' tag_end_nonempty S5) as (t & ->).
  apply cut_inv in C3. subst seg.
  repeat split.
  - exact (cut_leftmost tag_start data start rest tag_start_nonempty C1).
  - pose proof (occ_suffix tag_start e0 (tag_end ++ e ++ t)) as A.
    pose proof (occ_prefix tag_start (tag_end ++ e) t) as B.
    rewrite app_assoc in B. lia.
  - apply (split_segments_free_aux tag_end (e ++ t) e tag_end_nonempty).
    rewrite S5. now left.
  - destruct (split_head_prefix tag_start rest _ more tag_start_nonempty S2)
      as (u & Er).
    exists e0, t, u. rewrite <- Er. now apply cut_inv.
Qed.

Lemma occ_fence_head (sep y : string) :
  sep <> "" -> mem LF sep = false -> 3 < String.length sep ->
  occurrences sep (fence ++ y) = occurrences sep y.
Proof.
  intros N M L. change (fence ++ y) with ("" ++ fence ++ y).
  rewrite occ_fence by assumption.
  destruct sep; [congruence | reflexivity].
Qed.

(** A marker-free help text between fences: what the second run needs. *)
Lemma splice_fixed (H start e : string) :
  occurrences tag_start H = 0 ->
  occurrences tag_end H = 0 ->
  occurrences tag_start (start ++ tag_start) = 1 ->
  occurrences tag_start (tag_end ++ e) = 0 ->
  occurrences tag_end e = 0 ->
  splice H (start ++ tag_start ++ fence ++ H ++ fence ++ tag_end ++ e) =
  inr (start ++ tag_start ++ fence ++ H ++ fence ++ tag_end ++ e).
Proof.
  intros Hs He S1 S2 E2.
  pose proof (splice_cut H start (fenced H) e) as P.
  unfold fenced in P. rewrite !app_assoc in P. apply P; try assumption.
  - rewrite occ_fence_head by (discriminate || reflexivity || (simpl; lia)).
    rewrite (occ_fence tag_start H) by (reflexivity || (simpl; lia)).
    rewrite Hs, S2. reflexivity.
  - rewrite occ_fence_head by (discriminate || reflexivity || (simpl; lia)).
    rewrite (occ_fence tag_end H) by (reflexivity || (simpl; lia)).
    rewrite He, (occ_self tag_end tag_end_nonempty). reflexivity.
Qed.

Lemma occ_sep_then_fence (sep start y : string) :
  sep <> "" -> mem LF sep = false -> 3 < String.length sep ->
  occurrences sep (start ++ sep ++ fence ++ y) =
  occurrences sep (start ++ sep) + occurrences sep y.
Proof.
  intros N M L. rewrite (occ_app_sep sep N). f_equal.
  destruct sep as [|c p]; [congruence|].
  rewrite occ_fence by assumption.
  rewrite occ_short by (simpl; lia). reflexivity.
Qed.

Lemma app_inv_head (a x y : string) : a ++ x = a ++ y -> x = y.
Proof. induction a as [|c a IH]; simpl; [auto | intros [= E]; auto]. Qed.

Lemma app_inv_tail (t x y : string) : x ++ t = y ++ t -> x = y.
Proof.
  revert y; induction x as [|c x IH]; intros [|d y]; simpl; intros E.
  - reflexivity.
  - apply (f_equal String.length) in E. simpl in E.
    rewrite app_length in E. lia.
  - apply (f_equal String.length) in E. simpl in E.
    rewrite app_length in E. lia.
  - injection E as -> E. now rewrite (IH y E).
Qed.


(** *** The markers and the reading of the file *)

Lemma tag_start_free : mem CR tag_start = false /\ mem LF tag_start = false.
Proof. split; reflexivity. Qed.

Lemma tag_end_free : mem CR tag_end = false /\ mem LF tag_end = false.
Proof. split; reflexivity. Qed.

Lemma occ_start_un (s : string) :
  occurrences tag_start (universal_newlines s) = occurrences tag_start s.
Proof. now apply occ_un. Qed.

Lemma occ_end_un (s : string) :
  occurrences tag_end (universal_newlines s) = occurrences tag_end s.
Proof. now apply occ_un. Qed.

Lemma un_start (a b : string) :
  universal_newlines (a ++ tag_start ++ b) =
  universal_newlines a ++ tag_start ++ universal_newlines b.
Proof. now apply un_around. Qed.

Lemma un_end (a b : string) :
  universal_newlines (a ++ tag_end ++ b) =
  universal_newlines a ++ tag_end ++ universal_newlines b.
Proof. now apply un_around. Qed.

(** Reading a document cut at its markers, then splicing. *)
Lemma splice_cut_newlines (H p m s : string) :
  occurrences tag_start (p ++ tag_start) = 1 ->
  occurrences tag_start (m ++ tag_end ++ s) = 0 ->
  occurrences tag_end (m ++ tag_end) = 1 ->
  occurrences tag_end s = 0 ->
  splice H (universal_newlines (p ++ tag_start ++ m ++ tag_end ++ s)) =
  inr (universal_newlines p ++ tag_start ++ fence ++ H ++ fence ++ tag_end ++
       universal_newlines s).
Proof.
  intros S1 S2 E1 E2. rewrite un_start, un_end. apply splice_cut.
  - rewrite <- (un_snoc p tag_start) by (discriminate || reflexivity).
    now rewrite occ_start_un.
  - rewrite <- un_end. now rewrite occ_start_un.
  - rewrite <- (un_snoc m tag_end) by (discriminate || reflexivity).
    now rewrite occ_end_un.
  - now rewrite occ_end_un.
Qed.

Lemma well_formed_newlines (R p m s : string) :
  well_formed R p m s ->
  well_formed (universal_newlines R) (universal_newlines p)
              (universal_newlines m) (universal_newlines s).
Proof.
  intros (-> & Os & Oe). repeat split.
  - now rewrite un_start, un_end.
  - now rewrite occ_start_un.
  - now rewrite occ_end_un.
Qed.

(** The text outside the markers of a document cut at its markers. *)
Lemma text_outside (p x s : string) :
  occurrences tag_start (p ++ tag_start) = 1 ->
  occurrences tag_end ("!-- HELP_END -->" ++ s) = 0 ->
  text_before tag_start (p ++ tag_start ++ x ++ tag_end ++ s) = Some p /\
  text_after tag_end (p ++ tag_start ++ x ++ tag_end ++ s) = Some s.
Proof.
  intros S1 E3. split.
  - unfold text_before. now rewrite (cut_first tag_start tag_start_nonempty).
  - rewrite <- !(app_assoc p), <- !(app_assoc (p ++ tag_start)).
    now apply (text_after_last "<" "!-- HELP_END -->").
Qed.

(** The second run reads what the first run wrote. *)
Lemma splice_fixed_newlines (H start e : string) :
  occurrences tag_start H = 0 ->
  occurrences tag_end H = 0 ->
  occurrences tag_start (start ++ tag_start) = 1 ->
  occurrences tag_start (tag_end ++ e) = 0 ->
  occurrences tag_end e = 0 ->
  mem CR start = false ->
  mem CR e = false ->
  splice H (universal_newlines
              (start ++ tag_start ++ fence ++ H ++ fence ++ tag_end ++ e)) =
  inr (start ++ tag_start ++ fence ++ H ++ fence ++ tag_end ++ e).
Proof.
  intros Hs He S1 S2 E2 Cs Ce.
  pose proof (splice_cut_newlines H start (fenced H) e) as P.
  unfold fenced in P. rewrite !app_assoc in P.
  rewrite (un_id start Cs), (un_id e Ce) in P. apply P; try assumption.
  - rewrite occ_fence_head by (discriminate || reflexivity || (simpl; lia)).
    rewrite (occ_fence tag_start H) by (reflexivity || (simpl; lia)).
    rewrite Hs, S2. reflexivity.
  - rewrite occ_fence_head by (discriminate || reflexivity || (simpl; lia)).
    rewrite (occ_fence tag_end H) by (reflexivity || (simpl; lia)).
    rewrite He, (occ_self tag_end tag_end_nonempty). reflexivity.
Qed.

End Splice.


(** * Properties of the splice *)

Import Str StrFacts SplitFacts Newlines Splice.

Example README_old_wf :
  well_formed README_old ("# gazer" ++ String LF "") (fenced "OLDTEXT")
              (String LF "" ++ "## License").
Proof. repeat split. Qed.

(** C2 (replacement correctness).  For a README that contains each marker
    exactly once, start before end, the splice returns the text before the
    start marker, the start marker, a line feed, three backquotes, a line
    feed, the help text, a line feed, three backquotes, a line feed, the end
    marker and the text after the end marker, whatever was between the
    markers. *)
Theorem splice_replaces_block (H R p m s : string) :
  well_formed R p m s ->
  splice H R =
  inr (p ++ tag_start ++ String LF "" ++ "```" ++ String LF "" ++ H ++
       String LF "" ++ "```" ++ String LF "" ++ tag_end ++ s).
Proof.
  intros W. rewrite (splice_well_formed H R p m s W).
  unfold fenced. rewrite !app_assoc. reflexivity.
Qed.

Lemma splice_replaces_block_witness :
  well_formed README_old ("# gazer" ++ String LF "") (fenced "OLDTEXT")
              (String LF "" ++ "## License") /\
  splice "NEWTEXT" README_old =
  inr ("# gazer" ++ String LF "" ++ tag_start ++ String LF "" ++ "```" ++
       String LF "" ++ "NEWTEXT" ++ String LF "" ++ "```" ++ String LF "" ++
       tag_end ++ String LF "" ++ "## License").
Proof.
  split.
  - repeat split.
  - apply (splice_replaces_block "NEWTEXT" README_old
             ("# gazer" ++ String LF "") (fenced "OLDTEXT")
             (String LF "" ++ "## License")).
    repeat split.
Defined.

(** C1, as stated, fails: when the help text itself contains the start
    marker, the first run succeeds and the second run raises [IndexError]. *)
Lemma splice_not_idempotent :
  ~ (forall H R p m s out,
        well_formed R p m s ->
        splice H R = inr out -> splice H out = inr out).
Proof.
  intros C.
  specialize (C tag_start (tag_start ++ tag_end) "" "" ""
                (tag_start ++ fenced tag_start ++ tag_end)).
  assert (E : splice tag_start (tag_start ++ fenced tag_start ++ tag_end) =
              inl IndexError) by reflexivity.
  rewrite C in E; [discriminate | repeat split | reflexivity].
Qed.

(** C1 (idempotence), amended.  For a well-formed README and a help text in
    which neither marker occurs, the splice succeeds and splicing the same
    help text into its output returns that output again. *)
Theorem splice_idempotent (H R p m s : string) :
  well_formed R p m s ->
  occurrences tag_start H = 0 ->
  occurrences tag_end H = 0 ->
  exists out, splice H R = inr out /\ splice H out = inr out.
Proof.
  intros W Hs He.
  destruct (well_formed_facts _ _ _ _ W) as (S1 & S2 & _ & E1 & E2 & _).
  exists (p ++ tag_start ++ fenced H ++ tag_end ++ s).
  split; [exact (splice_well_formed H R p m s W)|].
  rewrite (splice_cut H p (fenced H) s); try assumption.
  - unfold fenced. now rewrite !app_assoc.
  - change (fenced H ++ tag_end ++ s) with ("" ++ fenced H ++ tag_end ++ s).
    rewrite occ_fenced by (reflexivity || (simpl; lia)).
    pose proof (occ_suffix tag_start m (tag_end ++ s)).
    rewrite Hs. simpl occurrences at 1. lia.
  - change (fenced H ++ tag_end) with ("" ++ fenced H ++ tag_end).
    rewrite occ_fenced by (reflexivity || (simpl; lia)).
    rewrite He, (occ_self tag_end tag_end_nonempty). reflexivity.
Qed.

Lemma splice_idempotent_witness :
  exists out,
    splice "NEWTEXT" README_old = inr out /\ splice "NEWTEXT" out = inr out.
Proof.
  apply (splice_idempotent "NEWTEXT" README_old
           ("# gazer" ++ String LF "") (fenced "OLDTEXT")
           (String LF "" ++ "## License")).
  - repeat split.
  - reflexivity.
  - reflexivity.
Defined.

(** C5, as stated, fails: a README with two start markers is accepted when
    the end marker stands between them; the second start marker and the text
    after it are dropped. *)
Lemma splice_accepts_repeated_start :
  ~ (forall H R, 1 < occurrences tag_start R -> splice H R = inl IndexError).
Proof.
  intros C. specialize (C "h" README_two_starts).
  assert (E : splice "h" README_two_starts =
              inr ("a" ++ tag_start ++ fenced "h" ++ tag_end ++ "c"))
    by reflexivity.
  rewrite C in E; [discriminate|]. vm_compute. lia.
Qed.

(** C5, amended.  When the start marker occurs again after the text [m] that
    follows its first occurrence, the splice raises [IndexError] exactly when
    the end marker does not occur in [m].  Otherwise it succeeds and uses [m]
    only: its output ends with the end marker followed by [e], the text of
    [m] between its first end marker and its next end marker, or its end;
    the second start marker and the text [t] after it are not in the
    output. *)
Theorem splice_repeated_start (H p m t : string) :
  occurrences tag_start (p ++ tag_start) = 1 ->
  occurrences tag_start (m ++ tag_start) = 1 ->
  (splice H (p ++ tag_start ++ m ++ tag_start ++ t) = inl IndexError <->
   occurrences tag_end m = 0) /\
  (occurrences tag_end m <> 0 ->
   exists a e r,
     m = a ++ tag_end ++ e ++ r /\
     occurrences tag_end (a ++ tag_end) = 1 /\
     occurrences tag_end e = 0 /\
     (r = "" \/ startswith tag_end r = true) /\
     splice H (p ++ tag_start ++ m ++ tag_start ++ t) =
     inr (p ++ tag_start ++ fence ++ H ++ fence ++ tag_end ++ e)).
Proof.
  intros S1 S2.
  assert (P : split tag_start (p ++ tag_start ++ m ++ tag_start ++ t) =
              p :: m :: split tag_start t)
    by (rewrite !split_first by auto using tag_start_nonempty; reflexivity).
  assert (Fail : occurrences tag_end m = 0 ->
                 splice H (p ++ tag_start ++ m ++ tag_start ++ t) = inl IndexError).
  { intros O. eapply splice_no_end; [exact P|].
    apply split_none; [exact tag_end_nonempty | exact O]. }
  assert (Succ : occurrences tag_end m <> 0 ->
                 exists a e r,
                   m = a ++ tag_end ++ e ++ r /\
                   occurrences tag_end (a ++ tag_end) = 1 /\
                   occurrences tag_end e = 0 /\
                   (r = "" \/ startswith tag_end r = true) /\
                   splice H (p ++ tag_start ++ m ++ tag_start ++ t) =
                   inr (p ++ tag_start ++ fence ++ H ++ fence ++ tag_end ++ e)).
  { intros O.
    destruct (cut_some tag_end tag_end_nonempty m O) as (a & b & Cm).
    pose proof (cut_leftmost tag_end m a b tag_end_nonempty Cm) as La.
    pose proof (split_eq tag_end tag_end_nonempty m) as Sm. rewrite Cm in Sm.
    pose proof (cut_inv tag_end m a b Cm) as Em.
    pose proof (split_eq tag_end tag_end_nonempty b) as Sb.
    destruct (cut tag_end b) as [[e b']|] eqn:Cb.
    - exists a, e, (tag_end ++ b').
      pose proof (cut_leftmost tag_end b e b' tag_end_nonempty Cb) as Le.
      pose proof (occ_snoc_sep tag_end tag_end_nonempty e).
      rewrite Sb in Sm. repeat split.
      + rewrite Em. now rewrite (cut_inv tag_end b e b' Cb).
      + assumption.
      + lia.
      + right. apply startswith_self.
      + eapply splice_parts; [exact P | exact Sm].
    - exists a, b, "". rewrite Sb in Sm. repeat split.
      + now rewrite app_nil_r.
      + assumption.
      + now apply cut_none_occ.
      + now left.
      + eapply splice_parts; [exact P | exact Sm]. }
  split; [split|]; auto.
  intros F. destruct (Nat.eq_dec (occurrences tag_end m) 0) as [|N]; [assumption|].
  destruct (Succ N) as (a & e & r & _ & _ & _ & _ & E). congruence.
Qed.

Lemma splice_repeated_start_witness :
  (splice "h" README_two_starts = inl IndexError <->
   occurrences tag_end ("b" ++ tag_end ++ "c") = 0) /\
  (occurrences tag_end ("b" ++ tag_end ++ "c") <> 0 ->
   exists a e r,
     "b" ++ tag_end ++ "c" = a ++ tag_end ++ e ++ r /\
     occurrences tag_end (a ++ tag_end) = 1 /\
     occurrences tag_end e = 0 /\
     (r = "" \/ startswith tag_end r = true) /\
     splice "h" README_two_starts =
     inr ("a" ++ tag_start ++ fence ++ "h" ++ fence ++ tag_end ++ e)).
Proof.
  apply (splice_repeated_start "h" "a" ("b" ++ tag_end ++ "c") "d").
  - reflexivity.
  - reflexivity.
Defined.

(** C9.  When the README has the start marker once and after it the end
    marker twice, the splice succeeds and its output ends with the text [s1]
    that stood between the two end markers: the second end marker and the
    text [s2] after it are not in the output. *)
Theorem splice_drops_after_second_end (H R p m s1 s2 : string) :
  R = p ++ tag_start ++ m ++ tag_end ++ s1 ++ tag_end ++ s2 ->
  occurrences tag_start R = 1 ->
  occurrences tag_end R = 2 ->
  splice H R = inr (p ++ tag_start ++ fence ++ H ++ fence ++ tag_end ++ s1).
Proof.
  intros -> Os Oe.
  assert (Ls : occurrences tag_start
                 (p ++ tag_start ++ m ++ tag_end ++ s1 ++ tag_end ++ s2) <= 1)
    by lia.
  destruct (occ_one_tight _ _ _ tag_start_nonempty Ls) as (S1 & _ & S2 & _).
  assert (Le : occurrences tag_end (m ++ tag_end ++ s1 ++ tag_end ++ s2) <= 2).
  { pose proof (occ_suffix tag_end (p ++ tag_start)
                  (m ++ tag_end ++ s1 ++ tag_end ++ s2)) as L.
    rewrite app_assoc in L. lia. }
  destruct (occ_two_tight _ _ _ _ tag_end_nonempty Le) as (E1 & E2 & E3).
  apply splice_parts with (seg := m ++ tag_end ++ s1 ++ tag_end ++ s2)
                          (e0 := m) (more := []) (more' := [s2]).
  - rewrite split_first, split_none by auto using tag_start_nonempty.
    reflexivity.
  - rewrite !split_first, split_none by auto using tag_end_nonempty.
    reflexivity.
Qed.

Lemma splice_drops_after_second_end_witness :
  occurrences tag_start
    ("a" ++ tag_start ++ "b" ++ tag_end ++ "c" ++ tag_end ++ "d") = 1 /\
  occurrences tag_end
    ("a" ++ tag_start ++ "b" ++ tag_end ++ "c" ++ tag_end ++ "d") = 2 /\
  splice "h" ("a" ++ tag_start ++ "b" ++ tag_end ++ "c" ++ tag_end ++ "d") =
  inr ("a" ++ tag_start ++ fence ++ "h" ++ fence ++ tag_end ++ "c").
Proof.
  split; [reflexivity|]. split; [reflexivity|].
  apply (splice_drops_after_second_end "h" _ "a" "b" "c" "d");
    reflexivity.
Defined.


(** * Properties of the two scripts *)

Module Run.

(** The sync script, case by case. *)
Lemma sync_readme_eq (cargo_help : result string)
      (fs_write : string -> write_outcome) (w : world) :
  sync_readme cargo_help fs_write w =
  match cargo_help with
  | inl e => (log RunCargoHelp w, inl e)
  | inr help_text =>
      let w1 := log ReadReadme (log RunCargoHelp w) in
      match readme w with
      | None => (w1, inl FileNotFoundError)
      | Some Undecodable => (w1, inl UnicodeDecodeError)
      | Some (Text chars) =>
          match splice help_text (universal_newlines chars) with
          | inl e => (w1, inl e)
          | inr out =>
              let w2 := log WriteReadme (emit (out ++ String LF "") w1) in
              match fs_write out with
              | Stored => (store (Text out) w2, inr tt)
              | OpenFails => (w2, inl OSError)
              | WriteFails remains => (store remains w2, inl OSError)
              end
          end
      end
  end.
Proof.
  unfold sync_readme, bind, check_output_help, read_readme, lift, print,
    write_readme.
  destruct cargo_help as [e|help_text]; [reflexivity|].
  cbn [readme log].
  destruct (readme w) as [[chars|]|]; reflexivity.
Qed.

Lemma strip_trailing_newlines_nil : strip_trailing_newlines "" = "".
Proof. reflexivity. Qed.

Lemma test_z_true (s : string) : test_z s = true <-> s = "".
Proof. destruct s; simpl; split; congruence. Qed.

(** The test [[ -z "$(git diff $FILE)" ]] of the check script. *)
Lemma clean_test (git_diff : option file_content -> string)
      (f : option file_content) :
  never_blank git_diff ->
  test_z (strip_trailing_newlines (git_diff f)) = true <-> git_diff f = "".
Proof.
  intros B. rewrite test_z_true. split.
  - apply B.
  - intros ->. reflexivity.
Qed.

Lemma git_diff_against_never_blank (committed : string) :
  never_blank (git_diff_against committed).
Proof.
  intros [[worktree|]|]; simpl.
  - destruct (String.eqb worktree committed); [reflexivity | discriminate].
  - discriminate.
  - discriminate.
Qed.

Lemma git_diff_against_detects (committed : string) :
  detects_changes committed (git_diff_against committed).
Proof.
  intros [[worktree|]|]; simpl.
  - destruct (String.eqb_spec worktree committed) as [->|N].
    + split; reflexivity.
    + split; [discriminate | intros [= E]; contradiction].
  - split; discriminate.
  - split; discriminate.
Qed.

(** The check script, case by case. *)
Lemma check_synced_readme_eq (cargo_help : result string)
      (fs_write : string -> write_outcome)
      (git_diff : option file_content -> string)
      (launch : launch_outcome) (w : world) :
  check_synced_readme cargo_help fs_write git_diff launch w =
  if test_z (strip_trailing_newlines (git_diff (readme w))) then
    match launch with
    | Started =>
        match sync_readme cargo_help fs_write (at_sync w) with
        | (w1, inl _) => (w1, 1)
        | (w1, inr _) =>
            if test_z (strip_trailing_newlines (git_diff (readme w1))) then
              (echo "README is up to date" (log GitDiff w1), 0)
            else
              (echo "README not synced"
                 (emit (git_diff (readme w1)) (log GitDiff (log GitDiff w1))),
               1)
        end
    | CannotExecute => (at_sync w, 126)
    | CommandNotFound => (at_sync w, 127)
    end
  else (echo "README file not clean" (log GitDiff w), 1).
Proof.
  unfold check_synced_readme, run_git_diff, run_sync, at_sync.
  cbn [readme log].
  destruct (test_z (strip_trailing_newlines (git_diff (readme w))));
    [|reflexivity].
  destruct launch; try reflexivity.
  destruct (sync_readme cargo_help fs_write _) as [w1 [e|u]]; reflexivity.
Qed.

(** A well-formed README without carriage return is read as it is. *)
Lemma mem_cr_parts (p x s : string) :
  Str.mem CR (p ++ tag_start ++ x ++ tag_end ++ s) = false ->
  Str.mem CR p = false /\ Str.mem CR s = false.
Proof.
  rewrite !mem_app. intros M.
  repeat (apply orb_false_iff in M as [? M]). auto.
Qed.

End Run.

Import Run.


(** C3, as stated, fails: the file is read in text mode, so a carriage
    return before the start marker is not in what is written back. *)
Lemma sync_changes_line_ends :
  ~ (forall H R p m s fs_write w w' R',
        well_formed R p m s ->
        readme w = Some (Text R) ->
        sync_readme (inr H) fs_write w = (w', inr tt) ->
        readme w' = Some (Text R') ->
        text_before tag_start R' = Some p /\ text_after tag_end R' = Some s).
Proof.
  intros C.
  destruct (C "OLDTEXT" README_crlf ("# gazer" ++ String CR (String LF ""))
              (fenced "OLDTEXT") (String CR (String LF "") ++ "## License")
              writable world_crlf _ _
              ltac:(repeat split) eq_refl eq_refl eq_refl) as (B & _).
  vm_compute in B. discriminate.
Qed.

(** C3 (marker preservation), amended.  For a well-formed README, when the
    help text is captured and the file can be written, the sync script
    succeeds, and in the file it leaves the text before the start marker and
    the text after the end marker are those of the file it found with every
    carriage return and line feed pair, and every other carriage return,
    replaced by one line feed; they are the same, character for character,
    when the file it found holds no carriage return. *)
Theorem sync_preserves_outside
        (H R p m s : string) (fs_write : string -> write_outcome) (w : world) :
  well_formed R p m s ->
  readme w = Some (Text R) ->
  fs_write (universal_newlines p ++ tag_start ++ fenced H ++ tag_end ++
            universal_newlines s) = Stored ->
  exists w' R',
    sync_readme (inr H) fs_write w = (w', inr tt) /\
    readme w' = Some (Text R') /\
    text_before tag_start R' = Some (universal_newlines p) /\
    text_after tag_end R' = Some (universal_newlines s) /\
    (mem CR R = false ->
     universal_newlines p = p /\ universal_newlines s = s).
Proof.
  intros W E F.
  pose proof (well_formed_newlines R p m s W) as Wn.
  pose proof (splice_well_formed H _ _ _ _ Wn) as Sp.
  destruct (well_formed_facts _ _ _ _ Wn) as (S1 & _ & _ & _ & _ & E3).
  rewrite sync_readme_eq, E, Sp. cbv zeta. rewrite F.
  eexists. eexists. split; [reflexivity|]. split; [reflexivity|].
  destruct (text_outside _ (fenced H) _ S1 E3) as (Tb & Ta).
  split; [exact Tb|]. split; [exact Ta|].
  intros M. destruct W as (-> & _).
  destruct (mem_cr_parts _ _ _ M) as (Cp & Cs).
  split; now apply un_id.
Qed.

Lemma sync_preserves_outside_witness :
  exists w' R',
    sync_readme (inr "NEWTEXT") writable world_crlf = (w', inr tt) /\
    readme w' = Some (Text R') /\
    text_before tag_start R' =
    Some (universal_newlines ("# gazer" ++ String CR (String LF ""))) /\
    text_after tag_end R' =
    Some (universal_newlines (String CR (String LF "") ++ "## License")) /\
    (mem CR README_crlf = false ->
     universal_newlines ("# gazer" ++ String CR (String LF "")) =
     "# gazer" ++ String CR (String LF "") /\
     universal_newlines (String CR (String LF "") ++ "## License") =
     String CR (String LF "") ++ "## License").
Proof.
  apply (sync_preserves_outside "NEWTEXT" README_crlf
           ("# gazer" ++ String CR (String LF "")) (fenced "OLDTEXT")
           (String CR (String LF "") ++ "## License") writable world_crlf).
  - repeat split.
  - reflexivity.
  - reflexivity.
Defined.

(** C4 (malformed input rejection).  When the README lacks the start marker
    or the end marker, the sync script ends with an exception, which is
    [IndexError] whenever the help text has been captured; nothing is
    printed, the file is not opened for writing and its content is the one it
    had. *)
Theorem sync_rejects_missing_marker
        (cargo_help : result string) (fs_write : string -> write_outcome)
        (R : string) (w : world) :
  readme w = Some (Text R) ->
  occurrences tag_start R = 0 \/ occurrences tag_end R = 0 ->
  exists w' e evs,
    sync_readme cargo_help fs_write w = (w', inl e) /\
    (forall H, cargo_help = inr H -> e = IndexError) /\
    readme w' = Some (Text R) /\
    stdout w' = stdout w /\
    trace w' = (trace w ++ evs)%list /\
    ~ In WriteReadme evs.
Proof.
  intros E O. rewrite sync_readme_eq.
  destruct cargo_help as [e|H].
  - exists (log RunCargoHelp w), e, [RunCargoHelp].
    repeat split; try assumption; try discriminate.
    intros [|[]]; discriminate.
  - assert (O' : occurrences tag_start (universal_newlines R) = 0 \/
                 occurrences tag_end (universal_newlines R) = 0)
      by (now rewrite occ_start_un, occ_end_un).
    rewrite E, (splice_marker_absent H _ O').
    exists (log ReadReadme (log RunCargoHelp w)), IndexError,
      [RunCargoHelp; ReadReadme].
    repeat split; try assumption.
    + cbn [trace log]. now rewrite <- List.app_assoc.
    + intros [|[|[]]]; discriminate.
Qed.

Lemma sync_rejects_missing_marker_witness :
  exists w' e evs,
    sync_readme (inr "NEWTEXT") writable
      (mkWorld (Some (Text ("# gazer" ++ tag_start))) "" []) =
    (w', inl e) /\
    (forall H, (inr "NEWTEXT" : result string) = inr H -> e = IndexError) /\
    readme w' = Some (Text ("# gazer" ++ tag_start)) /\
    stdout w' = "" /\
    trace w' = ([] ++ evs)%list /\
    ~ In WriteReadme evs.
Proof.
  apply (sync_rejects_missing_marker (inr "NEWTEXT") writable
           ("# gazer" ++ tag_start)
           (mkWorld (Some (Text ("# gazer" ++ tag_start))) "" [])).
  - reflexivity.
  - right. reflexivity.
Defined.

(** C10, as stated, fails: [print] ends its output with a line feed, so what
    reaches standard output is one character longer than what is written to
    the file. *)
Lemma sync_stdout_differs_from_file :
  ~ (forall cargo_help fs_write w w',
        stdout w = "" ->
        sync_readme cargo_help fs_write w = (w', inr tt) ->
        readme w' = Some (Text (stdout w'))).
Proof.
  intros C.
  specialize (C (inr "NEWTEXT") writable world_old _ eq_refl eq_refl).
  vm_compute in C. discriminate.
Qed.

(** C10, amended.  Whenever the sync script succeeds, what it has added to
    standard output is the text it has written to the README followed by the
    line feed with which [print] ends its output. *)
Theorem sync_prints_what_it_writes
        (cargo_help : result string) (fs_write : string -> write_outcome)
        (w w' : world) :
  sync_readme cargo_help fs_write w = (w', inr tt) ->
  exists out,
    readme w' = Some (Text out) /\
    stdout w' = stdout w ++ out ++ String LF "".
Proof.
  rewrite sync_readme_eq.
  destruct cargo_help as [e|help_text]; [discriminate|].
  destruct (readme w) as [[chars|]|]; try discriminate.
  destruct (splice help_text (universal_newlines chars)) as [e|out];
    [discriminate|].
  cbv zeta. destruct (fs_write out); try discriminate.
  intros [= <-]. exists out. split; reflexivity.
Qed.

Lemma sync_prints_what_it_writes_witness :
  exists out,
    readme (fst (sync_readme (inr "NEWTEXT") writable world_old)) =
    Some (Text out) /\
    stdout (fst (sync_readme (inr "NEWTEXT") writable world_old)) =
    "" ++ out ++ String LF "".
Proof.
  apply (sync_prints_what_it_writes (inr "NEWTEXT") writable world_old
           (fst (sync_readme (inr "NEWTEXT") writable world_old))).
  reflexivity.
Defined.


Section Check.

Variable cargo_help : result string.
Variable fs_write : string -> write_outcome.
Variable git_diff : option file_content -> string.
Variable launch : launch_outcome.

(** C6 (precondition failure).  When [git diff] reports a difference at the
    start, the check script prints its message and exits with status 1
    right after that first [git diff]: the sync script is not started, so
    cargo is not run, and the README is not touched.  The output of
    [git diff] is taken to be never blank, since the script tests it after
    command substitution. *)
Theorem check_dirty_tree (w : world) :
  never_blank git_diff ->
  git_diff (readme w) <> "" ->
  exists w',
    check_synced_readme cargo_help fs_write git_diff launch w = (w', 1) /\
    trace w' = (trace w ++ [GitDiff])%list /\
    readme w' = readme w /\
    stdout w' = stdout w ++ "README file not clean" ++ String LF "".
Proof.
  intros B D. rewrite check_synced_readme_eq.
  destruct (test_z (strip_trailing_newlines (git_diff (readme w)))) eqn:T.
  - apply (clean_test git_diff _ B) in T. contradiction.
  - eexists. split; [reflexivity|]. repeat split.
Qed.

(** C7 (postcondition).  Once the first [git diff] has reported nothing and
    the sync script has run: if the sync script failed, the check script
    exits with status 1; if it succeeded and [git diff] now reports nothing,
    the check script exits with status 0; if it succeeded and [git diff]
    reports a difference, the check script prints that difference and its
    message and exits with status 1.  When bash cannot run the sync script,
    the check script exits with the status bash reports, 126 or 127. *)
Theorem check_after_sync (w : world) :
  never_blank git_diff ->
  git_diff (readme w) = "" ->
  match launch with
  | Started =>
      match sync_readme cargo_help fs_write (at_sync w) with
      | (w1, inl _) =>
          check_synced_readme cargo_help fs_write git_diff launch w = (w1, 1)
      | (w1, inr _) =>
          (git_diff (readme w1) = "" ->
           exists w2,
             check_synced_readme cargo_help fs_write git_diff launch w =
             (w2, 0) /\
             readme w2 = readme w1 /\
             stdout w2 = stdout w1 ++ "README is up to date" ++ String LF "") /\
          (git_diff (readme w1) <> "" ->
           exists w2,
             check_synced_readme cargo_help fs_write git_diff launch w =
             (w2, 1) /\
             readme w2 = readme w1 /\
             stdout w2 =
             stdout w1 ++ git_diff (readme w1) ++
             "README not synced" ++ String LF "")
      end
  | CannotExecute =>
      check_synced_readme cargo_help fs_write git_diff launch w =
      (at_sync w, 126)
  | CommandNotFound =>
      check_synced_readme cargo_help fs_write git_diff launch w =
      (at_sync w, 127)
  end.
Proof.
  intros B D.
  pose proof (check_synced_readme_eq cargo_help fs_write git_diff launch w) as E.
  rewrite D in E. cbn [strip_trailing_newlines test_z] in E.
  destruct launch; try exact E.
  destruct (sync_readme cargo_help fs_write (at_sync w)) as [w1 [e|u]];
    [exact E|].
  rewrite E.
  destruct (test_z (strip_trailing_newlines (git_diff (readme w1)))) eqn:T.
  - apply (clean_test git_diff _ B) in T. split.
    + intros _. eexists. split; [reflexivity|]. split; reflexivity.
    + intros N. contradiction.
  - split.
    + intros Z. apply (clean_test git_diff _ B) in Z. congruence.
    + intros _. eexists. split; [reflexivity|]. split; [reflexivity|].
      cbn [stdout echo emit log]. now rewrite StrFacts.app_assoc.
Qed.


End Check.

Lemma check_dirty_tree_witness :
  exists w',
    check_synced_readme (inr "NEWTEXT") writable (git_diff_against "committed")
      Started world_old =
    (w', 1) /\
    trace w' = ([] ++ [GitDiff])%list /\
    readme w' = Some (Text README_old) /\
    stdout w' = "" ++ "README file not clean" ++ String LF "".
Proof.
  apply (check_dirty_tree (inr "NEWTEXT") writable
           (git_diff_against "committed") Started world_old).
  - exact (git_diff_against_never_blank "committed").
  - vm_compute. discriminate.
Defined.

Lemma check_after_sync_witness :
  match sync_readme (inr "NEWTEXT") writable (at_sync world_old) with
  | (w1, inl _) =>
      check_synced_readme (inr "NEWTEXT") writable
        (git_diff_against README_old) Started world_old =
      (w1, 1)
  | (w1, inr _) =>
      (git_diff_against README_old (readme w1) = "" ->
       exists w2,
         check_synced_readme (inr "NEWTEXT") writable
           (git_diff_against README_old) Started world_old = (w2, 0) /\
         readme w2 = readme w1 /\
         stdout w2 = stdout w1 ++ "README is up to date" ++ String LF "") /\
      (git_diff_against README_old (readme w1) <> "" ->
       exists w2,
         check_synced_readme (inr "NEWTEXT") writable
           (git_diff_against README_old) Started world_old = (w2, 1) /\
         readme w2 = readme w1 /\
         stdout w2 =
         stdout w1 ++ git_diff_against README_old (readme w1) ++
         "README not synced" ++ String LF "")
  end.
Proof.
  apply (check_after_sync (inr "NEWTEXT") writable
           (git_diff_against README_old) Started world_old).
  - exact (git_diff_against_never_blank README_old).
  - reflexivity.
Defined.


(** The same failure without any carriage return: when the help text is the
    start marker, a committed README that holds exactly the fenced help text
    between its markers makes the sync script raise [IndexError]. *)
Lemma check_fails_on_marker_in_help :
  ~ (forall cargo_help fs_write git_diff launch H p s w,
        cargo_help = inr H ->
        launch = Started ->
        (forall t, fs_write t = Stored) ->
        readme w = Some (Text (p ++ tag_start ++ fenced H ++ tag_end ++ s)) ->
        git_diff (readme w) = "" ->
        exists w',
          check_synced_readme cargo_help fs_write git_diff launch w = (w', 0) /\
          readme w' = readme w).
Proof.
  intros C.
  destruct (C (inr tag_start) writable (git_diff_against README_marker_help)
              Started tag_start "" ""
              (mkWorld (Some (Text README_marker_help)) "" [])
              eq_refl eq_refl (fun _ => eq_refl) eq_refl eq_refl)
    as (w' & E & _).
  vm_compute in E. discriminate.
Qed.



(** * Further properties of [str.split] and of the splice *)

(** X1.  When [s.split(sep)] returns, joining its segments with [sep] gives
    [s] back. *)
Theorem split_join (s sep : string) (parts : list string) :
  str_split s sep = inr parts -> String.concat sep parts = s.
Proof.
  destruct sep as [|c sep']; [discriminate|]. intros [= <-].
  set (sep := String c sep'). unfold split.
  generalize (String.length s) as f. intros f. revert s.
  induction f as [|f IH]; intros s; [reflexivity|].
  rewrite split_n_S. destruct (cut sep s) as [[a b]|] eqn:C; [|reflexivity].
  specialize (IH b). pose proof (split_n_not_nil f sep b) as NN.
  destruct (split_n f sep b) as [|y ys]; [congruence|].
  change (String.concat sep (a :: y :: ys))
    with (a ++ sep ++ String.concat sep (y :: ys)).
  rewrite IH. symmetry. now apply cut_inv.
Qed.

Lemma split_join_witness :
  String.concat "," ["a"; "b"; ""; "c"] = "a,b,,c".
Proof.
  apply (split_join "a,b,,c" "," ["a"; "b"; ""; "c"]). reflexivity.
Defined.

(** X2.  No segment of [s.split(sep)] contains [sep]. *)
Theorem split_segments_free (sep s x : string) :
  sep <> "" -> In x (split sep s) -> occurrences sep x = 0.
Proof.
  intros N I. unfold split in I.
  apply (split_n_segment_free sep (String.length s) s x N); auto.
Qed.

Lemma split_segments_free_witness :
  occurrences tag_end "c" = 0.
Proof.
  apply (split_segments_free tag_end ("b" ++ tag_end ++ "c" ++ tag_end ++ "d") "c").
  - discriminate.
  - right. left. reflexivity.
Defined.

(** X3.  [s.split(sep)] has a segment at index 1 exactly when [sep] occurs in
    [s]: the subscript [[1]] raises [IndexError] if and only if the
    separator is absent. *)
Theorem split_index_1 (sep s : string) :
  sep <> "" ->
  (subscript (split sep s) 1 = inl IndexError <-> occurrences sep s = 0).
Proof.
  intros N. rewrite (split_eq sep N). split.
  - destruct (cut sep s) as [[a b]|] eqn:C.
    + pose proof (split_not_nil sep N b) as NN.
      destruct (split sep b); [congruence | discriminate].
    + intros _. now apply cut_none_occ.
  - intros O. now rewrite (cut_none sep N s O).
Qed.

Lemma split_index_1_witness :
  subscript (split tag_start "no marker here") 1 = inl IndexError <->
  occurrences tag_start "no marker here" = 0.
Proof.
  apply (split_index_1 tag_start "no marker here"). discriminate.
Defined.

(** X4.  Whether the splice succeeds does not depend on the help text, its
    only exception is [IndexError], and when it succeeds the help text is
    placed, unchanged, between two texts that do not depend on it. *)
Theorem splice_help_text_parametric (data : string) :
  (forall H, splice H data = inl IndexError) \/
  (exists start e,
      forall H,
        splice H data =
        inr (start ++ tag_start ++ fence ++ H ++ fence ++ tag_end ++ e)).
Proof.
  destruct (split tag_start data) as [|start [|seg more]] eqn:S1.
  - left. intros H. now rewrite splice_shape, S1.
  - left. intros H. now rewrite splice_shape, S1.
  - destruct (split tag_end seg) as [|e0 [|e more']] eqn:S2.
    + left. intros H. now rewrite splice_shape, S1, S2.
    + left. intros H. now rewrite splice_shape, S1, S2.
    + right. exists start, e. intros H. now rewrite splice_shape, S1, S2.
Qed.

(** X5.  The order of the markers matters: when no end marker occurs after
    the first start marker, the splice raises [IndexError], even if an end
    marker occurs before that start marker. *)
Theorem splice_end_before_start (H p m : string) :
  occurrences tag_start (p ++ tag_start) = 1 ->
  occurrences tag_end m = 0 ->
  splice H (p ++ tag_start ++ m) = inl IndexError.
Proof.
  intros S1 E. rewrite splice_shape.
  rewrite (split_first tag_start tag_start_nonempty p m S1).
  destruct (split tag_start m) as [|seg more] eqn:S2.
  { now apply split_not_nil in S2. }
  assert (O : occurrences tag_end seg = 0).
  { pose proof (split_n_occ tag_end tag_start (String.length m) m seg) as I.
    fold (split tag_start m) in I. rewrite S2 in I.
    specialize (I (or_introl eq_refl)). lia. }
  now rewrite (split_none tag_end tag_end_nonempty seg O).
Qed.

Lemma splice_end_before_start_witness :
  splice "NEWTEXT" README_end_first = inl IndexError.
Proof.
  apply (splice_end_before_start "NEWTEXT" (tag_end ++ "x") "y");
    reflexivity.
Defined.

(** X6.  Whenever the splice succeeds, on a well-formed README or not, the
    text before the first start marker is the same in its output as in its
    input. *)
Theorem splice_keeps_prefix (H data out : string) :
  splice H data = inr out ->
  exists start,
    text_before tag_start data = Some start /\
    text_before tag_start out = Some start.
Proof.
  intros E.
  destruct (splice_success H data out E) as (start & rest & e & -> & C & S1 & _).
  exists start. unfold text_before.
  rewrite C, (cut_first tag_start tag_start_nonempty start _ S1).
  split; reflexivity.
Qed.

Lemma splice_keeps_prefix_witness :
  exists start,
    text_before tag_start README_repeated = Some start /\
    text_before tag_start
      ("a" ++ tag_start ++ fence ++ "NEWTEXT" ++ fence ++ tag_end ++ "c") =
    Some start.
Proof.
  apply (splice_keeps_prefix "NEWTEXT" README_repeated). reflexivity.
Defined.

(** X7.  When neither marker occurs in the help text, every output of the
    splice is a fixed point of the splice, whatever the README was: a second
    run with the same help text returns the same document, also after a
    first run on a README with repeated markers. *)
Theorem splice_fixed_point (H data out : string) :
  occurrences tag_start H = 0 ->
  occurrences tag_end H = 0 ->
  splice H data = inr out ->
  splice H out = inr out.
Proof.
  intros Hs He E.
  destruct (splice_success H data out E)
    as (start & rest & e & -> & _ & S1 & S2 & E2 & _).
  now apply splice_fixed.
Qed.

Lemma splice_fixed_point_witness :
  splice "NEWTEXT"
    ("a" ++ tag_start ++ fence ++ "NEWTEXT" ++ fence ++ tag_end ++ "c") =
  inr ("a" ++ tag_start ++ fence ++ "NEWTEXT" ++ fence ++ tag_end ++ "c").
Proof.
  apply (splice_fixed_point "NEWTEXT" README_repeated); reflexivity.
Defined.

(** X8.  When the start marker does not occur in the help text, every output
    of the splice contains the start marker exactly once, however many the
    README had. *)
Theorem splice_output_one_start (H data out : string) :
  occurrences tag_start H = 0 ->
  splice H data = inr out ->
  occurrences tag_start out = 1.
Proof.
  intros Hs E.
  destruct (splice_success H data out E)
    as (start & rest & e & -> & _ & S1 & S2 & _).
  rewrite occ_sep_then_fence by (discriminate || reflexivity || (simpl; lia)).
  rewrite (occ_fence tag_start H) by (reflexivity || (simpl; lia)).
  rewrite S1, Hs, S2. reflexivity.
Qed.

Lemma splice_output_one_start_witness :
  occurrences tag_start README_repeated = 2 /\
  occurrences tag_start
    ("a" ++ tag_start ++ fence ++ "NEWTEXT" ++ fence ++ tag_end ++ "c") = 1.
Proof.
  split; [reflexivity|].
  apply (splice_output_one_start "NEWTEXT" README_repeated); reflexivity.
Defined.

(** X16.  For a well-formed text the splice succeeds, and the text before
    the start marker and the text after the end marker are the same in its
    output as in its input: in both the text before the first start marker
    is [p] and the text after the last end marker is [s]. *)
Theorem splice_preserves_outside (H R p m s : string) :
  well_formed R p m s ->
  exists out,
    splice H R = inr out /\
    text_before tag_start R = Some p /\
    text_before tag_start out = Some p /\
    text_after tag_end R = Some s /\
    text_after tag_end out = Some s.
Proof.
  intros W.
  destruct (well_formed_facts _ _ _ _ W) as (S1 & _ & _ & _ & _ & E3).
  exists (p ++ tag_start ++ fenced H ++ tag_end ++ s).
  split; [exact (splice_well_formed H R p m s W)|].
  destruct W as (-> & _). unfold text_before.
  rewrite !cut_first by auto using tag_start_nonempty.
  repeat split.
  - rewrite <- !(app_assoc p), <- !(app_assoc (p ++ tag_start)).
    now apply (text_after_last "<" "!-- HELP_END -->").
  - rewrite <- !(app_assoc p), <- !(app_assoc (p ++ tag_start)).
    now apply (text_after_last "<" "!-- HELP_END -->").
Qed.

Lemma splice_preserves_outside_witness :
  exists out,
    splice "NEWTEXT" README_old = inr out /\
    text_before tag_start README_old = Some ("# gazer" ++ String LF "") /\
    text_before tag_start out = Some ("# gazer" ++ String LF "") /\
    text_after tag_end README_old = Some (String LF "" ++ "## License") /\
    text_after tag_end out = Some (String LF "" ++ "## License").
Proof.
  apply (splice_preserves_outside "NEWTEXT" README_old
           ("# gazer" ++ String LF "") (fenced "OLDTEXT")
           (String LF "" ++ "## License")).
  repeat split.
Defined.


(** * Further properties of the two scripts *)



(** X10.  When [README.md] does not exist, the sync script still runs cargo
    first; if the help text is captured it then ends with
    [FileNotFoundError], and the file is not created. *)
Theorem sync_missing_readme
        (cargo_help : result string) (fs_write : string -> write_outcome)
        (w : world) :
  readme w = None ->
  exists w' e evs,
    sync_readme cargo_help fs_write w = (w', inl e) /\
    (forall H, cargo_help = inr H -> e = FileNotFoundError) /\
    readme w' = None /\
    trace w' = (trace w ++ RunCargoHelp :: evs)%list.
Proof.
  intros E. rewrite sync_readme_eq.
  destruct cargo_help as [e|H].
  - exists (log RunCargoHelp w), e, []. repeat split; try assumption.
    discriminate.
  - rewrite E. exists (log ReadReadme (log RunCargoHelp w)), FileNotFoundError,
      [ReadReadme].
    repeat split; try assumption.
    cbn [trace log]. now rewrite <- List.app_assoc.
Qed.

Lemma sync_missing_readme_witness :
  exists w' e evs,
    sync_readme (inr "NEWTEXT") writable (mkWorld None "" []) = (w', inl e) /\
    (forall H, (inr "NEWTEXT" : result string) = inr H ->
               e = FileNotFoundError) /\
    readme w' = None /\
    trace w' = ([] ++ RunCargoHelp :: evs)%list.
Proof.
  apply (sync_missing_readme (inr "NEWTEXT") writable (mkWorld None "" [])).
  reflexivity.
Defined.

(** X11.  When neither marker occurs in the help text and the sync script
    has succeeded, running it again with the same help text succeeds, prints
    the same document again and writes the content the README already has. *)
Theorem sync_twice
        (H : string) (fs_write : string -> write_outcome) (w w1 : world) :
  occurrences tag_start H = 0 ->
  occurrences tag_end H = 0 ->
  sync_readme (inr H) fs_write w = (w1, inr tt) ->
  exists w2 out,
    sync_readme (inr H) fs_write w1 = (w2, inr tt) /\
    readme w1 = Some (Text out) /\
    readme w2 = Some (Text out) /\
    stdout w2 = stdout w1 ++ out ++ String LF "".
Proof.
  intros Hs He. rewrite !sync_readme_eq. cbv zeta.
  destruct (readme w) as [[chars|]|]; try discriminate.
  destruct (splice H (universal_newlines chars)) as [e|out] eqn:E;
    [discriminate|].
  destruct (fs_write out) eqn:F; try discriminate.
  intros [= <-]. cbn [readme store].
  destruct (splice_success H _ out E)
    as (start & rest & e & -> & _ & S1 & S2 & E2 & e0 & t & u & Ed).
  pose proof (un_no_cr chars) as M. rewrite Ed in M.
  rewrite !mem_app in M.
  repeat match goal with
         | X : (_ || _)%bool = false |- _ => apply orb_false_iff in X as [? ?]
         end.
  rewrite (splice_fixed_newlines H start e) by assumption.
  rewrite F. eexists. eexists. repeat split.
Qed.

Lemma sync_twice_witness :
  exists w2 out,
    sync_readme (inr "NEWTEXT") writable
      (fst (sync_readme (inr "NEWTEXT") writable world_crlf)) =
    (w2, inr tt) /\
    readme (fst (sync_readme (inr "NEWTEXT") writable world_crlf)) =
    Some (Text out) /\
    readme w2 = Some (Text out) /\
    stdout w2 =
    stdout (fst (sync_readme (inr "NEWTEXT") writable world_crlf)) ++
    out ++ String LF "".
Proof.
  apply (sync_twice "NEWTEXT" writable world_crlf); reflexivity.
Defined.


Section CheckMore.

Variable cargo_help : result string.
Variable fs_write : string -> write_outcome.
Variable git_diff : option file_content -> string.
Variable launch : launch_outcome.

(** X12.  The check script exits with status 0 exactly when the first
    [git diff] reports nothing, the sync script is started and succeeds, and
    the second [git diff] reports nothing. *)
Theorem check_exit_zero (w : world) :
  never_blank git_diff ->
  (exists w',
      check_synced_readme cargo_help fs_write git_diff launch w = (w', 0)) <->
  git_diff (readme w) = "" /\
  launch = Started /\
  exists w1,
    sync_readme cargo_help fs_write (at_sync w) = (w1, inr tt) /\
    git_diff (readme w1) = "".
Proof.
  intros B. rewrite check_synced_readme_eq.
  pose proof (clean_test git_diff (readme w) B) as T0.
  destruct (test_z (strip_trailing_newlines (git_diff (readme w)))).
  2:{ split.
      - intros (w' & [=]).
      - intros (D & _). apply T0 in D. discriminate. }
  destruct launch.
  2:{ split; [intros (w' & [=]) | intros (_ & [=] & _)]. }
  2:{ split; [intros (w' & [=]) | intros (_ & [=] & _)]. }
  destruct (sync_readme cargo_help fs_write (at_sync w)) as [w1 [e|[]]].
  { split.
    - intros (w' & [=]).
    - intros (_ & _ & w1' & [=] & _). }
  pose proof (clean_test git_diff (readme w1) B) as T1.
  destruct (test_z (strip_trailing_newlines (git_diff (readme w1)))).
  - split.
    + intros _. split; [now apply T0|]. split; [reflexivity|].
      exists w1. split; [reflexivity|]. now apply T1.
    + intros _. eexists. reflexivity.
  - split.
    + intros (w' & [=]).
    + intros (_ & _ & w1' & [= <-] & D). apply T1 in D. discriminate.
Qed.

(** X13.  When [git diff] prints nothing only for the committed content,
    exit status 0 of the check script means that the README had the
    committed content before the run and has it after the run. *)
Theorem check_exit_zero_unchanged (committed : string) (w w' : world) :
  never_blank git_diff ->
  detects_changes committed git_diff ->
  check_synced_readme cargo_help fs_write git_diff launch w = (w', 0) ->
  readme w = Some (Text committed) /\ readme w' = Some (Text committed).
Proof.
  intros B D. rewrite check_synced_readme_eq.
  pose proof (clean_test git_diff (readme w) B) as T0.
  destruct (test_z (strip_trailing_newlines (git_diff (readme w))));
    [|discriminate].
  destruct launch; try discriminate.
  destruct (sync_readme cargo_help fs_write (at_sync w)) as [w1 [e|u]];
    [discriminate|].
  pose proof (clean_test git_diff (readme w1) B) as T1.
  destruct (test_z (strip_trailing_newlines (git_diff (readme w1))));
    [|discriminate].
  intros [= <-]. split.
  - apply D. now apply T0.
  - cbn [readme echo emit log]. apply D. now apply T1.
Qed.

(** X14.  From a clean working tree, let the README, read in text mode, be
    well-formed with [p] before the start marker and [s] after the end
    marker.  When the file differs from [p], the start marker, the fenced
    help text, the end marker and [s], and the sync script is started,
    captures the help text and can write the file, the check script exits
    with status 1 and leaves the README rewritten with that document. *)
Theorem check_stale (H R p m s : string) (w : world) :
  never_blank git_diff ->
  detects_changes R git_diff ->
  cargo_help = inr H ->
  launch = Started ->
  well_formed (universal_newlines R) p m s ->
  R <> p ++ tag_start ++ fenced H ++ tag_end ++ s ->
  fs_write (p ++ tag_start ++ fenced H ++ tag_end ++ s) = Stored ->
  readme w = Some (Text R) ->
  exists w',
    check_synced_readme cargo_help fs_write git_diff launch w = (w', 1) /\
    readme w' = Some (Text (p ++ tag_start ++ fenced H ++ tag_end ++ s)) /\
    readme w' <> readme w.
Proof.
  intros B D C L W Ne F E.
  pose proof (splice_well_formed H _ p m s W) as Sp.
  assert (Dn : git_diff
                 (Some (Text (p ++ tag_start ++ fenced H ++ tag_end ++ s))) <> "").
  { intros X. apply D in X. congruence. }
  rewrite check_synced_readme_eq, E, L.
  rewrite (proj2 (clean_test git_diff (Some (Text R)) B))
    by (apply D; reflexivity).
  rewrite sync_readme_eq, C. cbn [at_sync readme log echo emit]. rewrite E, Sp.
  cbv zeta. rewrite F. cbn [readme store].
  destruct (test_z (strip_trailing_newlines
              (git_diff
                 (Some (Text (p ++ tag_start ++ fenced H ++ tag_end ++ s))))))
    eqn:T.
  - apply (clean_test git_diff _ B) in T. contradiction.
  - eexists. split; [reflexivity|]. cbn [readme echo emit log store].
    split; [reflexivity|]. congruence.
Qed.

End CheckMore.

Lemma check_exit_zero_witness :
  (exists w',
      check_synced_readme (inr "OLDTEXT") writable
        (git_diff_against README_old) Started world_old = (w', 0)) <->
  git_diff_against README_old (readme world_old) = "" /\
  Started = Started /\
  exists w1,
    sync_readme (inr "OLDTEXT") writable (at_sync world_old) = (w1, inr tt) /\
    git_diff_against README_old (readme w1) = "".
Proof.
  apply (check_exit_zero (inr "OLDTEXT") writable
           (git_diff_against README_old) Started world_old).
  exact (git_diff_against_never_blank README_old).
Defined.

Lemma check_exit_zero_unchanged_witness :
  readme world_old = Some (Text README_old) /\
  readme (fst (check_synced_readme (inr "OLDTEXT") writable
                 (git_diff_against README_old) Started world_old)) =
  Some (Text README_old).
Proof.
  apply (check_exit_zero_unchanged (inr "OLDTEXT") writable
           (git_diff_against README_old) Started README_old world_old).
  - exact (git_diff_against_never_blank README_old).
  - exact (git_diff_against_detects README_old).
  - reflexivity.
Defined.

Lemma check_stale_witness :
  exists w',
    check_synced_readme (inr "OLDTEXT") writable
      (git_diff_against README_crlf) Started world_crlf = (w', 1) /\
    readme w' =
    Some (Text (("# gazer" ++ String LF "") ++ tag_start ++ fenced "OLDTEXT" ++
                tag_end ++ String LF "" ++ "## License")) /\
    readme w' <> readme world_crlf.
Proof.
  apply (check_stale (inr "OLDTEXT") writable
           (git_diff_against README_crlf) Started
           "OLDTEXT" README_crlf ("# gazer" ++ String LF "")
           (fenced "OLDTEXT") (String LF "" ++ "## License") world_crlf).
  - exact (git_diff_against_never_blank README_crlf).
  - exact (git_diff_against_detects README_crlf).
  - reflexivity.
  - reflexivity.
  - repeat split.
  - vm_compute. discriminate.
  - reflexivity.
  - reflexivity.
Defined.

